(** * PrimeNumberFinder: counting and reconstructing primes from sieve bytes

    A shallow embedding of [src/soe/PrimeNumberFinder.cpp] (primesieve) and
    the properties of its lookup tables, its segment counter, its segment
    generator and its per-segment dispatcher.

    Conventions of the embedding:
    - [uint32_t] and [uint64_t] values are [Z], every arithmetic result is
      reduced with [u32] / [u64] where the C++ code wraps;
    - the sieve array is a [list byte]; the size argument is kept apart
      from it, as in the C++ signatures;
    - a computation that reads outside an array, dereferences a NULL table
      or never leaves a loop yields [None];
    - calls to the outside world (callbacks, [std::cout], [doStatus]) are
      recorded, in order, as a list of [Effect]s. *)

From Stdlib Require Import ZArith Lia Strings.Byte Ascii String DecimalString.
From stdpp Require Import base numbers option list sorting.

Local Open Scope Z_scope.

(* ================================================================== *)
(** * Definitions *)
(* ================================================================== *)

(** ** Machine integers and generic control flow *)

Definition u32 (x : Z) : Z := x mod 2 ^ 32.
Definition u64 (x : Z) : Z := x mod 2 ^ 64.

(** [flags & mask] used as a C++ condition. *)
Definition flag_set (flags mask : Z) : bool := negb (Z.land flags mask =? 0).

(** The value of a sieve byte, used as an array index. *)
Definition byteIndex (b : byte) : nat := N.to_nat (Byte.to_N b).
Definition byteZ (b : byte) : Z := Z.of_N (Byte.to_N b).

(** A [for]/[while] loop: [cond] is tested before each round; the loop
    state is threaded through [body]. [fuel] bounds the number of tests;
    running out of it stands for a loop that does not end. *)
Fixpoint while {St : Type} (fuel : nat) (cond : St → bool)
    (body : St → option St) (s : St) : option St :=
  match fuel with
  | O => None
  | S fuel' =>
      if cond s then s' ← body s; while fuel' cond body s' else Some s
  end.

(** Rounds needed by a loop whose 32-bit index runs up to [sieveSize]. *)
Definition loopFuel (sieveSize : Z) : nat := S (Z.to_nat sieveSize).

(** A loop over a fixed index range. *)
Fixpoint forEach {A St : Type} (l : list A) (body : A → St → option St)
    (s : St) : option St :=
  match l with
  | [] => Some s
  | x :: l' => s' ← body x s; forEach l' body s'
  end.

(** Number of set bits among the [n] lowest bits of [x]. *)
Fixpoint popcount (n : nat) (x : Z) : Z :=
  match n with
  | O => 0
  | S m => popcount m x + Z.b2z (Z.testbit x (Z.of_nat m))
  end.

(** Decimal output of an unsigned integer, as [operator<<] prints it. *)
Definition decimal (v : Z) : string :=
  NilZero.string_of_uint (N.to_uint (Z.to_N v)).

Definition newline : string := String (ascii_of_nat 10) EmptyString.

(** ** Constants of the file and of the headers it includes *)

Definition BYTE_SIZE : Z := Z.shiftl 1 8.
Definition END : Z := BYTE_SIZE.

(** Modelled from the spec: [NUMBERS_PER_BYTE] is declared in
    SieveOfEratosthenes.h; the spec gives "the fixed numbers-per-byte
    constant (30)", which is also the number of initialisers of
    [nextBitValue_]. *)
Definition NUMBERS_PER_BYTE : Z := 30.

(** Modelled from the spec: [COUNTS_SIZE] is declared in PrimeSieve.h; the
    spec gives 7 tuplet classes and 7 accumulators, and [bitmasks] has 7
    rows. *)
Definition COUNTS_SIZE : Z := 7.

Definition nextBitValue_ : list Z :=
  [ 0;
    0; 0; 0; 0; 0; 0;
    11; 0; 0; 0; 13; 0;
    17; 0; 0; 0; 19; 0;
    23; 0; 0; 0; 29; 0;
    0; 0; 0; 0; 31 ].

(** The rows of [bitmasks[COUNTS_SIZE][9]]; the initialisers that the C++
    text leaves out are zero. *)
Definition bitmasks : list (list Z) :=
  [ [0x01; 0x02; 0x04; 0x08; 0x10; 0x20; 0x40; 0x80; END];
    [0x06; 0x18; 0xc0; END; 0; 0; 0; 0; 0];
    [0x07; 0x0e; 0x1c; 0x38; END; 0; 0; 0; 0];
    [0x1e; END; 0; 0; 0; 0; 0; 0; 0];
    [0x1f; 0x3e; END; 0; 0; 0; 0; 0; 0];
    [0x3f; END; 0; 0; 0; 0; 0; 0; 0];
    [0xfe; END; 0; 0; 0; 0; 0; 0; 0] ].

(** Modelled from the spec: [ntz] comes from pmath.h; the spec says
    "compute the lowest set bit of the pattern", that is the number of
    trailing zero bits. *)
Fixpoint trailingZeros (p : positive) : nat :=
  match p with
  | xO q => S (trailingZeros q)
  | _ => O
  end.

Definition ntz (x : Z) : nat :=
  match x with
  | Zpos p => trailingZeros p
  | _ => O
  end.

(** The flag constants of [PrimeSieve] (PrimeSieve.h is not part of the
    sources at hand): they stay parameters of the development. *)
Class PrimeSieveFlags := {
  COUNT_PRIMES : Z;
  COUNT_FLAGS : Z;
  PRINT_PRIMES : Z;
  PRINT_FLAGS : Z;
  CALLBACK_PRIMES : Z;
  CALLBACK_PRIMES_OOP : Z;
  GENERATE_FLAGS : Z;
  SSE4_POPCNT : Z
}.

(** The layout the code relies on: the seven print flags are consecutive
    bits of a 32-bit word starting at [PRINT_PRIMES], and the generate
    flags are the print flags and the two callback flags. *)
Record FlagsLayout `{PrimeSieveFlags} (p : Z) : Prop := {
  print_primes_bit : PRINT_PRIMES = 2 ^ p;
  print_ladder_low : 0 <= p;
  print_ladder_high : p + 6 < 32;
  print_flags_bits : PRINT_FLAGS = 127 * 2 ^ p;
  generate_flags_bits :
    GENERATE_FLAGS = Z.lor PRINT_FLAGS (Z.lor CALLBACK_PRIMES CALLBACK_PRIMES_OOP)
}.

(** ** State *)

(** The part of [PrimeSieve] that this file reads and writes. *)
Record PrimeSieve := {
  flags_ : Z;
  counts_ : list Z;
  cbObj_ : Z;
  startNumber_ : Z;
  stopNumber_ : Z;
  sieveSize_ : Z;
  preSieveLimit_ : Z
}.

Definition getStartNumber (ps : PrimeSieve) : Z := startNumber_ ps.
Definition getStopNumber (ps : PrimeSieve) : Z := stopNumber_ ps.
Definition getSieveSize (ps : PrimeSieve) : Z := sieveSize_ ps.
Definition getPreSieveLimit (ps : PrimeSieve) : Z := preSieveLimit_ ps.

Definition set_flags (ps : PrimeSieve) (f : Z) : PrimeSieve :=
  {| flags_ := f; counts_ := counts_ ps; cbObj_ := cbObj_ ps;
     startNumber_ := startNumber_ ps; stopNumber_ := stopNumber_ ps;
     sieveSize_ := sieveSize_ ps; preSieveLimit_ := preSieveLimit_ ps |}.

Definition set_counts (ps : PrimeSieve) (c : list Z) : PrimeSieve :=
  {| flags_ := flags_ ps; counts_ := c; cbObj_ := cbObj_ ps;
     startNumber_ := startNumber_ ps; stopNumber_ := stopNumber_ ps;
     sieveSize_ := sieveSize_ ps; preSieveLimit_ := preSieveLimit_ ps |}.

(** The arguments handed to the base class constructor. *)
Record SieveOfEratosthenes := {
  soe_startNumber : Z;
  soe_stopNumber : Z;
  soe_sieveSize : Z;
  soe_preSieveLimit : Z
}.

(** [primeByteCounts_] is NULL or an array of [COUNTS_SIZE] rows, each NULL
    or an array of [BYTE_SIZE] counts. [primeBitValues_] is NULL or an
    array of [BYTE_SIZE] rows of 9 words; a word that was never written
    is [None]. *)
Record PrimeNumberFinder := {
  soe : SieveOfEratosthenes;
  primeByteCounts_ : option (list (option (list Z)));
  primeBitValues_ : option (list (list (option Z)))
}.

(** What the code does to the outside world. [call_count] and
    [call_generate] mark the two member calls of [analyseSieve]. *)
Inductive Effect :=
| callback_ (prime : Z)
| callbackOOP_ (prime : Z) (cbObj : Z)
| cout (text : string)
| call_count
| call_generate
| doStatus (processed : Z).

(** ** initLookupTables *)

(** [for (b = bitmasks[i]; *b <= j; b++) if ((j & *b) == *b) bitmaskCount++;] *)
Fixpoint countBitmasks (b : list Z) (j : Z) (bitmaskCount : Z) : option Z :=
  match b with
  | [] => None
  | m :: b' =>
      if m <=? j then
        countBitmasks b' j
          (if Z.land j m =? m then u32 (bitmaskCount + 1) else bitmaskCount)
      else Some bitmaskCount
  end.

(** One row [primeByteCounts_[i]]. *)
Definition byteCountsRow (i : Z) : option (list Z) :=
  b ← bitmasks !! Z.to_nat i;
  mapM (λ j, countBitmasks b j 0) (seqZ 0 BYTE_SIZE).

Section Finder.

Context `{PrimeSieveFlags}.

(** [bitValues_] is a member of the base class (SieveOfEratosthenes.h):
    the number that each of the 8 bits of a sieve byte stands for. *)
Variable bitValues_ : list Z.

(** Whether the macro [POPCNT64] is defined. *)
Variable POPCNT64_defined : bool.

Definition initByteCounts (flags : Z) : option (list (option (list Z))) :=
  mapM (λ i,
      if flag_set flags (Z.shiftl COUNT_PRIMES i)
      then row ← byteCountsRow i; Some (Some row)
      else Some None)
    (seqZ 0 COUNTS_SIZE).

(** A loop over the print flags:
    [for (uint32_t j = PRINT_PRIMES; (j & flags) == 0; j <<= 1) body].
    After 32 shifts [j] is 0 and the loop cannot end any more, so 33
    tests decide it. *)
Definition printLadder {St : Type} (flags : Z) (body : St → option St)
    (s : St) : option St :=
  snd <$> while 33
    (λ js : Z * St, Z.land js.1 flags =? 0)
    (λ js, s' ← body js.2; Some (u32 (Z.shiftl js.1 1), s'))
    (PRINT_PRIMES, s).

Definition generateType (flags : Z) : option Z :=
  if flag_set flags PRINT_FLAGS
  then printLadder flags (λ g, Some (u32 (g + 1))) 0
  else Some 0.

(** [row[k] = v] on a row of fixed size. *)
Definition store (row : list (option Z)) (k : Z) (v : Z)
    : option (list (option Z)) :=
  if decide (Z.to_nat k < length row)%nat
  then Some (<[Z.to_nat k := Some v]> row)
  else None.

(** [for (b = bitmasks[generateType]; *b <= i; b++)
      if ((i & *b) == *b) row[bitmaskCount++] = bitValues_[ntz( *b)];] *)
Fixpoint bitValuesLoop (b : list Z) (i : Z) (row : list (option Z))
    (bitmaskCount : Z) : option (list (option Z) * Z) :=
  match b with
  | [] => None
  | m :: b' =>
      if m <=? i then
        if Z.land i m =? m then
          v ← bitValues_ !! ntz m;
          row' ← store row bitmaskCount v;
          bitValuesLoop b' i row' (u32 (bitmaskCount + 1))
        else bitValuesLoop b' i row bitmaskCount
      else Some (row, bitmaskCount)
  end.

(** One row [primeBitValues_[i]], a fresh array of 9 words. *)
Definition bitValuesRow (b : list Z) (i : Z) : option (list (option Z)) :=
  '(row, bitmaskCount) ← bitValuesLoop b i (replicate 9 None) 0;
  store row bitmaskCount END.

Definition initBitValues (flags : Z) : option (list (list (option Z))) :=
  g ← generateType flags;
  b ← bitmasks !! Z.to_nat g;
  mapM (bitValuesRow b) (seqZ 0 BYTE_SIZE).

Definition initLookupTables (flags : Z)
    : option (option (list (option (list Z)))
              * option (list (list (option Z)))) :=
  counts ← (if flag_set flags COUNT_FLAGS
            then Some <$> initByteCounts flags else Some None);
  values ← (if flag_set flags GENERATE_FLAGS
            then Some <$> initBitValues flags else Some None);
  Some (counts, values).

(** ** The constructor *)

Definition baseArguments (ps : PrimeSieve) : SieveOfEratosthenes :=
  {| soe_startNumber := Z.max (u64 (getStartNumber ps)) 7;
     soe_stopNumber := getStopNumber ps;
     soe_sieveSize := u32 (getSieveSize ps * 1024);
     soe_preSieveLimit := getPreSieveLimit ps |}.

(** The constructor updates the [PrimeSieve] it points to and builds the
    finder. *)
Definition newPrimeNumberFinder (isPOPCNTSupported : bool) (ps : PrimeSieve)
    : option (PrimeSieve * PrimeNumberFinder) :=
  let ps' := if isPOPCNTSupported
             then set_flags ps (Z.lor (flags_ ps) SSE4_POPCNT) else ps in
  tables ← initLookupTables (flags_ ps');
  Some (ps', {| soe := baseArguments ps;
                primeByteCounts_ := tables.1;
                primeBitValues_ := tables.2 |}).

(** ** count *)

(** Modelled from the spec: the macro [POPCNT64] comes from defs.h; the
    spec says "process the segment in 8-byte chunks, accumulating the
    population count of each chunk". The chunk is the 64-bit word stored
    in the 8 bytes from index [i] on. *)
Fixpoint wordOfBytes (bs : list byte) : Z :=
  match bs with
  | [] => 0
  | b :: bs' => Z.lor (byteZ b) (Z.shiftl (wordOfBytes bs') 8)
  end.

Definition POPCNT64 (sieve : list byte) (i : Z) : option Z :=
  let chunk := take 8 (drop (Z.to_nat i) sieve) in
  if decide (length chunk = 8%nat)
  then Some (popcount 64 (wordOfBytes chunk)) else None.

(** [for (; i + 8 < sieveSize; i += 8) primeCount += POPCNT64(sieve, i);] *)
Definition popcntLoop (sieve : list byte) (sieveSize : Z)
    : Z * Z → option (Z * Z) :=
  while (loopFuel sieveSize)
    (λ s, u32 (s.1 + 8) <? sieveSize)
    (λ s, c ← POPCNT64 sieve s.1; Some (u32 (s.1 + 8), u32 (s.2 + c))).

(** [for (; i < sieveSize; i++) n += table[sieve[i]];] *)
Definition tableLoop (table : list Z) (sieve : list byte) (sieveSize : Z)
    : Z * Z → option (Z * Z) :=
  while (loopFuel sieveSize)
    (λ s, s.1 <? sieveSize)
    (λ s, b ← sieve !! Z.to_nat s.1;
          c ← table !! byteIndex b;
          Some (u32 (s.1 + 1), u32 (s.2 + c))).

(** [counts_[i] += n] on the 64-bit accumulators. *)
Definition addCount (ps : PrimeSieve) (i : Z) (n : Z) : option PrimeSieve :=
  c ← counts_ ps !! Z.to_nat i;
  Some (set_counts ps (<[Z.to_nat i := u64 (c + n)]> (counts_ ps))).

Definition countRow (pnf : PrimeNumberFinder) (i : Z) : option (list Z) :=
  tables ← primeByteCounts_ pnf;
  row ← tables !! Z.to_nat i;
  row.

(** The block "count prime numbers". *)
Definition countPrimes (ps : PrimeSieve) (pnf : PrimeNumberFinder)
    (sieve : list byte) (sieveSize : Z) : option PrimeSieve :=
  if flag_set (flags_ ps) COUNT_PRIMES then
    s ← (if POPCNT64_defined && flag_set (flags_ ps) SSE4_POPCNT
         then popcntLoop sieve sieveSize (0, 0) else Some (0, 0));
    table ← countRow pnf 0;
    s' ← tableLoop table sieve sieveSize s;
    addCount ps 0 s'.2
  else Some ps.

(** The block "count prime k-tuplets". *)
Definition countTuplets (ps : PrimeSieve) (pnf : PrimeNumberFinder)
    (sieve : list byte) (sieveSize : Z) : option PrimeSieve :=
  forEach (seqZ 1 (COUNTS_SIZE - 1))
    (λ i ps,
       if flag_set (flags_ ps) (Z.shiftl COUNT_PRIMES i) then
         table ← countRow pnf i;
         s' ← tableLoop table sieve sieveSize (0, 0);
         addCount ps i s'.2
       else Some ps)
    ps.

Definition count (ps : PrimeSieve) (pnf : PrimeNumberFinder)
    (sieve : list byte) (sieveSize : Z) : option PrimeSieve :=
  ps' ← countPrimes ps pnf sieve sieveSize;
  countTuplets ps' pnf sieve sieveSize.

(** ** generate *)

(** [for (bitValue = row; *bitValue != END; bitValue++) emit;] *)
Fixpoint walkRow (row : list (option Z)) (emit : Z → option (list Effect))
    : option (list Effect) :=
  match row with
  | [] => None
  | None :: _ => None
  | Some bitValue :: row' =>
      if bitValue =? END then Some []
      else es ← emit bitValue; rest ← walkRow row' emit; Some (es ++ rest)
  end.

(** [for (i = 0; i < sieveSize; i++, byteValue += NUMBERS_PER_BYTE)
      for (bitValue = primeBitValues_[sieve[i]]; ...) emit]: the loop
    header shared by the four branches of [generate]. The state is
    [(i, byteValue, output so far)]. *)
Definition generateLoop (pnf : PrimeNumberFinder) (sieve : list byte)
    (sieveSize : Z) (segmentLow : Z)
    (emit : Z → Z → option (list Effect)) : option (list Effect) :=
  snd <$> while (loopFuel sieveSize)
    (λ s : Z * Z * list Effect, s.1.1 <? sieveSize)
    (λ s, b ← sieve !! Z.to_nat s.1.1;
          table ← primeBitValues_ pnf;
          row ← table !! byteIndex b;
          es ← walkRow row (emit s.1.2);
          Some (u32 (s.1.1 + 1), u64 (s.1.2 + NUMBERS_PER_BYTE), s.2 ++ es))
    (0, segmentLow, []).

Definition emitCallback (byteValue bitValue : Z) : option (list Effect) :=
  Some [callback_ (u64 (byteValue + bitValue))].

Definition emitCallbackOOP (cbObj : Z) (byteValue bitValue : Z)
    : option (list Effect) :=
  Some [callbackOOP_ (u64 (byteValue + bitValue)) cbObj].

Definition emitPrime (byteValue bitValue : Z) : option (list Effect) :=
  Some [cout (decimal (u64 (byteValue + bitValue)) ++ newline)%string].

(** The body of the last branch: the state of the inner loop is
    [(v, text written so far)]. *)
Definition emitTuplet (flags : Z) (byteValue bitValue : Z)
    : option (list Effect) :=
  vs ← printLadder flags
         (λ vs : Z * string,
            v' ← nextBitValue_ !! Z.to_nat vs.1;
            Some (v', (vs.2 ++ decimal (u64 (byteValue + vs.1)) ++ ", ")%string))
         (bitValue, "("%string);
  Some [cout (vs.2 ++ decimal (u64 (byteValue + vs.1)) ++ ")" ++ newline)%string].

Definition generate (ps : PrimeSieve) (pnf : PrimeNumberFinder)
    (segmentLow : Z) (sieve : list byte) (sieveSize : Z)
    : option (list Effect) :=
  if flag_set (flags_ ps) CALLBACK_PRIMES then
    generateLoop pnf sieve sieveSize segmentLow emitCallback
  else if flag_set (flags_ ps) CALLBACK_PRIMES_OOP then
    generateLoop pnf sieve sieveSize segmentLow (emitCallbackOOP (cbObj_ ps))
  else if flag_set (flags_ ps) PRINT_PRIMES then
    generateLoop pnf sieve sieveSize segmentLow emitPrime
  else
    generateLoop pnf sieve sieveSize segmentLow (emitTuplet (flags_ ps)).

(** ** analyseSieve *)

Definition analyseSieve (ps : PrimeSieve) (pnf : PrimeNumberFinder)
    (segmentLow : Z) (sieve : list byte) (sieveSize : Z)
    : option (PrimeSieve * list Effect) :=
  counted ← (if flag_set (flags_ ps) COUNT_FLAGS
             then ps' ← count ps pnf sieve sieveSize; Some (ps', [call_count])
             else Some (ps, []));
  generated ← (if flag_set (flags_ counted.1) GENERATE_FLAGS
               then es ← generate counted.1 pnf segmentLow sieve sieveSize;
                    Some (call_generate :: es)
               else Some []);
  Some (counted.1,
        counted.2 ++ generated
        ++ [doStatus (u32 (sieveSize * NUMBERS_PER_BYTE))]).

End Finder.
(** ** Reference definitions used by the statements *)

(** A table entry compared with its expected value, as a test that
    computes. *)
Definition entryIs (row : list Z) (expected : Z → Z) (j : Z) : bool :=
  match row !! Z.to_nat j with
  | Some c => c =? expected j
  | None => false
  end.

(** The patterns of a row of [bitmasks]: its entries before the sentinel. *)
Fixpoint patterns (row : list Z) : list Z :=
  match row with
  | [] => []
  | m :: row' => if m =? END then [] else m :: patterns row'
  end.

(** The count as the specification words it, without the early exit:
    scan the entire pattern list and count each pattern that is fully
    contained in [j]. *)
Definition fullScanCount (ps : list Z) (j : Z) : Z :=
  Z.of_nat (length (filter (λ p, Z.land j p = p) ps)).

(** The sum of the table entries of the bytes of a segment. *)
Definition tableSum (table : list Z) (bs : list byte) : Z :=
  foldr (λ b acc, default 0 (table !! byteIndex b) + acc) 0 bs.

(** [k] rounds of a loop body. *)
Fixpoint iterate {St : Type} (k : nat) (body : St → option St) (s : St)
    : option St :=
  match k with
  | O => Some s
  | S k' => s' ← body s; iterate k' body s'
  end.

(** [k] is the position, on the ladder of print flags that starts at bit
    [p], of the lowest print flag set in [flags]. *)
Definition lowestPrintFlag (p : Z) (flags : Z) (k : nat) : Prop :=
  (k <= 6)%nat ∧
  Z.testbit flags (p + Z.of_nat k) = true ∧
  ∀ t, 0 <= t < Z.of_nat k → Z.testbit flags (p + t) = false.

(** A row of 9 words of which the first ones hold [vals]. *)
Definition filled (vals : list Z) : list (option Z) :=
  (Some <$> vals) ++ replicate (9 - length vals) None.

(** The patterns among [ps] that are fully contained in the byte [i]. *)
Definition contained (i : Z) (ps : list Z) : list Z :=
  filter (λ p, Z.land i p = p) ps.

(** The number that the lowest bit of the pattern [p] stands for. *)
Definition bitValueOf (bitValues_ : list Z) (p : Z) : Z :=
  default 0 (bitValues_ !! ntz p).

(** The numbers listed for the byte [i] in the table of the class whose
    row of [bitmasks] is [row]. *)
Definition rowValues (bitValues_ : list Z) (row : list Z) (i : Z) : list Z :=
  bitValueOf bitValues_ <$> contained i (patterns row).

(** The entries of a row of [primeBitValues_] before its sentinel. *)
Fixpoint rowEntries (row : list (option Z)) : list Z :=
  match row with
  | Some bitValue :: row' =>
      if bitValue =? END then [] else bitValue :: rowEntries row'
  | _ => []
  end.

(** A row whose written words reach a sentinel. *)
Definition rowTerminated (row : list (option Z)) : Prop :=
  ∃ vals rest, row = (Some <$> vals) ++ Some END :: rest.

(** What [generate] is expected to do, in order: a running value starts
    at the low value of the segment and advances by [NUMBERS_PER_BYTE]
    after each byte; each entry of the row of the current byte yields the
    effects [out runningValue entry]. *)
Fixpoint generated (table : list (list (option Z)))
    (out : Z → Z → list Effect) (runningValue : Z) (sieve : list byte)
    : list Effect :=
  match sieve with
  | [] => []
  | b :: rest =>
      concat (out runningValue <$> rowEntries (default [] (table !! byteIndex b)))
      ++ generated table out (u64 (runningValue + NUMBERS_PER_BYTE)) rest
  end.

(** The three ways of handing over one prime, in the order in which
    [generate] tests their flags. *)
Definition plainMode `{PrimeSieveFlags} (ps : PrimeSieve) : bool :=
  flag_set (flags_ ps) CALLBACK_PRIMES
  || flag_set (flags_ ps) CALLBACK_PRIMES_OOP
  || flag_set (flags_ ps) PRINT_PRIMES.

Definition plainEffect `{PrimeSieveFlags} (ps : PrimeSieve) (v : Z) : Effect :=
  if flag_set (flags_ ps) CALLBACK_PRIMES then callback_ v
  else if flag_set (flags_ ps) CALLBACK_PRIMES_OOP
       then callbackOOP_ v (cbObj_ ps)
       else cout (decimal v ++ newline)%string.

(** The members of a tuplet that starts at [v] and has [n] further
    members, each found from the one before it in [nextBitValue_]. *)
Fixpoint tupletMembers (n : nat) (v : Z) : option (list Z) :=
  match n with
  | O => Some [v]
  | S n' =>
      v' ← nextBitValue_ !! Z.to_nat v;
      rest ← tupletMembers n' v';
      Some (v :: rest)
  end.

(** The text [v1, v2, ..., vN] of the members of a tuplet. *)
Fixpoint membersText (byteValue : Z) (members : list Z) : string :=
  match members with
  | [] => ""
  | v :: rest =>
      match rest with
      | [] => decimal (u64 (byteValue + v))
      | _ => decimal (u64 (byteValue + v)) ++ ", " ++ membersText byteValue rest
      end
  end%string.

(** The line [(v1, v2, ..., vN)] and its line break. *)
Definition tupletLine (byteValue : Z) (members : list Z) : string :=
  ("(" ++ membersText byteValue members ++ ")" ++ newline)%string.

(** The four emission modes of [generate]. *)
Inductive EmissionMode :=
| FunctionCallback
| ObjectCallback
| PrintPrimes
| PrintTuplets.

(** The precedence among the flags: function callback, then bound-object
    callback, then printing of primes, and tuplet printing otherwise. *)
Definition selectedMode `{PrimeSieveFlags} (ps : PrimeSieve) : EmissionMode :=
  if flag_set (flags_ ps) CALLBACK_PRIMES then FunctionCallback
  else if flag_set (flags_ ps) CALLBACK_PRIMES_OOP then ObjectCallback
  else if flag_set (flags_ ps) PRINT_PRIMES then PrintPrimes
  else PrintTuplets.

(** The loop body of each mode. *)
Definition emitter `{PrimeSieveFlags} (ps : PrimeSieve) (m : EmissionMode)
    : Z → Z → option (list Effect) :=
  match m with
  | FunctionCallback => emitCallback
  | ObjectCallback => emitCallbackOOP (cbObj_ ps)
  | PrintPrimes => emitPrime
  | PrintTuplets => emitTuplet (flags_ ps)
  end.

(** The effects that belong to each mode. *)
Definition effectOfMode (m : EmissionMode) (e : Effect) : Prop :=
  match m, e with
  | FunctionCallback, callback_ _ => True
  | ObjectCallback, callbackOOP_ _ _ => True
  | PrintPrimes, cout text => ∃ v, text = (decimal v ++ newline)%string
  | PrintTuplets, cout text => ∃ body, text = ("(" ++ body)%string
  | _, _ => False
  end.

(** Modelled from the spec: the numbers that the 8 bits of a sieve byte
    stand for in the base class ([bitValues_] of SieveOfEratosthenes.h).
    The spec binds bit 0 to 7, bit 1 to 11 and bit 2 to 13; the chain in
    [nextBitValue_] continues with 17, 19, 23, 29 and 31. *)
Definition wheel30 : list Z := [7; 11; 13; 17; 19; 23; 29; 31].

(** A flag layout that satisfies [FlagsLayout]: count flags in the bits
    0 to 6, print flags in the bits 7 to 13, then the two callback flags
    and the POPCNT flag. *)
Definition exampleFlags : PrimeSieveFlags :=
  {| COUNT_PRIMES := 1; COUNT_FLAGS := 127;
     PRINT_PRIMES := 128; PRINT_FLAGS := 16256;
     CALLBACK_PRIMES := 16384; CALLBACK_PRIMES_OOP := 32768;
     GENERATE_FLAGS := 65408; SSE4_POPCNT := 65536 |}.

(** A [PrimeSieve] with the given flags and cleared counters. *)
Definition examplePrimeSieve (flags : Z) : PrimeSieve :=
  {| flags_ := flags; counts_ := replicate 7 0; cbObj_ := 0;
     startNumber_ := 0; stopNumber_ := 1000; sieveSize_ := 32;
     preSieveLimit_ := 19 |}.

(** In the table of the class [k], every entry of the row of the byte [b]
    differs from the sentinel and starts a chain of [k] lookups that stay
    within [nextBitValue_]. *)
Definition chainClosed (bitValues_ : list Z) (k : nat) (b : Z) : bool :=
  forallb
    (λ v, negb (v =? END) && bool_decide (is_Some (tupletMembers k v)))
    (rowValues bitValues_ (default [] (bitmasks !! k)) b).

(** The finder that the constructor builds for [examplePrimeSieve flags]
    on a machine without POPCNT (no tables if the constructor fails). *)
Definition exampleFinder (flags : Z) : PrimeNumberFinder :=
  match @newPrimeNumberFinder exampleFlags wheel30 false
          (examplePrimeSieve flags) with
  | Some (_, pnf) => pnf
  | None => {| soe := @baseArguments (examplePrimeSieve flags);
               primeByteCounts_ := None; primeBitValues_ := None |}
  end.

(** ** Reference definitions for the properties beyond the claims *)

(** What one call of [count] adds to the counter of the class [i]: the
    32-bit sum of the table entries of the bytes, if the class is
    counted. *)
Definition addTotal `{PrimeSieveFlags} (flags : Z) (pnf : PrimeNumberFinder)
    (sieve : list byte) (i : nat) (c : Z) : Z :=
  if flag_set flags (Z.shiftl COUNT_PRIMES (Z.of_nat i))
  then u64 (c + u32 (tableSum (default [] (countRow pnf (Z.of_nat i))) sieve))
  else c.

Definition countedTotals `{PrimeSieveFlags} (ps : PrimeSieve)
    (pnf : PrimeNumberFinder) (sieve : list byte) : list Z :=
  imap (addTotal (flags_ ps) pnf sieve) (counts_ ps).

(** The positions of the bits that are set in a byte, in ascending
    order. *)
Definition setBits (b : Z) : list nat :=
  List.filter (λ i, Z.testbit b (Z.of_nat i)) (seq 0 8).

(** The number that the bit [i] of a sieve byte stands for. *)
Definition bitValueAt (bitValues_ : list Z) (i : nat) : Z :=
  default 0 (bitValues_ !! i).

(** The patterns of the prime class pick out the set bits of a byte, and
    the chain of a pattern of the class [k] in [nextBitValue_] runs through
    the numbers of the bits of the pattern: two tests that compute. *)
Definition primeRowIsSetBits (b : Z) : bool :=
  bool_decide (ntz <$> contained b (patterns (default [] (bitmasks !! 0%nat)))
               = setBits b).

Definition chainIsPattern (bitValues_ : list Z) (k : nat) : bool :=
  forallb
    (λ q, bool_decide (tupletMembers k (bitValueOf bitValues_ q)
                       = Some (bitValueAt bitValues_ <$> setBits q))
          && bool_decide (length (setBits q) = S k))
    (patterns (default [] (bitmasks !! k))).

(** The numbers that the set bits of the bytes of a segment stand for,
    byte by byte and lowest bit first; each byte covers
    [NUMBERS_PER_BYTE] numbers. *)
Fixpoint segmentNumbers (bitValues_ : list Z) (lowValue : Z)
    (sieve : list byte) : list Z :=
  match sieve with
  | [] => []
  | b :: rest =>
      ((λ i, lowValue + bitValueAt bitValues_ i) <$> setBits (byteZ b))
      ++ segmentNumbers bitValues_ (lowValue + NUMBERS_PER_BYTE) rest
  end.

(** The lines of the tuplets of a segment: for each byte, one line for
    each pattern of the class that the byte contains, with the numbers of
    the bits of the pattern. *)
Fixpoint segmentTuplets (bitValues_ : list Z) (bm : list Z) (lowValue : Z)
    (sieve : list byte) : list Effect :=
  match sieve with
  | [] => []
  | b :: rest =>
      ((λ q, cout (tupletLine lowValue (bitValueAt bitValues_ <$> setBits q)))
         <$> contained (byteZ b) (patterns bm))
      ++ segmentTuplets bitValues_ bm (u64 (lowValue + NUMBERS_PER_BYTE)) rest
  end.

(* ================================================================== *)
(** * Properties *)
(* ================================================================== *)

(** ** Loops *)

(** A loop with an invariant [P] and a variant [m] ends in a state where
    [P] holds and the condition fails, when [fuel] exceeds the variant. *)
Lemma while_variant {St : Type} (cond : St → bool) (body : St → option St)
    (P : St → Prop) (m : St → nat) :
  (∀ s, P s → cond s = true →
        ∃ s', body s = Some s' ∧ P s' ∧ (m s' < m s)%nat) →
  ∀ fuel s, P s → (m s < fuel)%nat →
    ∃ s', while fuel cond body s = Some s' ∧ P s' ∧ cond s' = false.
Proof.
  intros Hstep fuel. induction fuel as [|fuel IH]; intros s HP Hm; [lia|].
  cbn [while]. destruct (cond s) eqn:Hc.
  - destruct (Hstep s HP Hc) as (s' & -> & HP' & Hlt). cbn.
    apply IH; [done | lia].
  - eauto.
Qed.


Lemma forallb_seqZ (f : Z → bool) (lo len : Z) :
  forallb f (seqZ lo len) = true → ∀ j, lo <= j < lo + len → f j = true.
Proof.
  intros Hall j Hj. rewrite forallb_forall in Hall. apply Hall.
  apply list_elem_of_In, elem_of_seqZ. lia.
Qed.

Lemma u32_small x : 0 <= x < 2 ^ 32 → u32 x = x.
Proof. intros. unfold u32. by apply Z.mod_small. Qed.

Lemma u32_range x : 0 <= u32 x < 2 ^ 32.
Proof. unfold u32. apply Z.mod_pos_bound. lia. Qed.

Lemma u32_add_l x y : u32 (u32 x + y) = u32 (x + y).
Proof. unfold u32. by rewrite Zplus_mod_idemp_l. Qed.

Lemma u32_add_r x y : u32 (x + u32 y) = u32 (x + y).
Proof. unfold u32. by rewrite Zplus_mod_idemp_r. Qed.

Lemma u64_add_l x y : u64 (u64 x + y) = u64 (x + y).
Proof. unfold u64. by rewrite Zplus_mod_idemp_l. Qed.

Lemma byteZ_range b : 0 <= byteZ b < 256.
Proof.
  unfold byteZ. pose proof (Byte.to_N_bounded b). lia.
Qed.

Lemma byteIndex_byteZ b : byteIndex b = Z.to_nat (byteZ b).
Proof. unfold byteIndex, byteZ. lia. Qed.

(** ** The count tables *)

Lemma lookup_seqZ_0 (len j : Z) :
  0 <= j < len → seqZ 0 len !! Z.to_nat j = Some j.
Proof. intros. apply lookup_seqZ. lia. Qed.

Lemma mapM_lookup {A B : Type} (f : A → option B) (l : list A) (k : list B)
    (i : nat) (x : A) :
  mapM f l = Some k → l !! i = Some x → ∃ y, k !! i = Some y ∧ f x = Some y.
Proof.
  intros Hm Hl. apply mapM_Some_1 in Hm.
  destruct (Forall2_lookup_l _ _ _ _ _ Hm Hl) as (y & ? & ?). eauto.
Qed.

Lemma byteCountsRow_total i :
  0 <= i < COUNTS_SIZE → is_Some (byteCountsRow i).
Proof.
  unfold COUNTS_SIZE. intros Hi.
  assert (i = 0 ∨ i = 1 ∨ i = 2 ∨ i = 3 ∨ i = 4 ∨ i = 5 ∨ i = 6)
    as Hcases by lia.
  destruct_or! Hcases; subst i; vm_compute; eauto.
Qed.

Section Tables.
Context `{PrimeSieveFlags}.

Lemma initByteCounts_total flags : is_Some (initByteCounts flags).
Proof.
  unfold initByteCounts. apply mapM_is_Some, Forall_forall.
  intros i Hi%elem_of_seqZ. cbn.
  destruct (flag_set _ _); [|by eauto].
  destruct (byteCountsRow_total i) as [row ->]; [lia|]. cbn. eauto.
Qed.

Lemma initByteCounts_lookup flags tables i :
  initByteCounts flags = Some tables → 0 <= i < COUNTS_SIZE →
  flag_set flags (Z.shiftl COUNT_PRIMES i) = true →
  ∃ row, tables !! Z.to_nat i = Some (Some row) ∧ byteCountsRow i = Some row.
Proof.
  intros Hinit Hi Hflag. unfold initByteCounts in Hinit.
  destruct (mapM_lookup _ _ _ (Z.to_nat i) i Hinit) as (r & Hr & Hf).
  { by apply lookup_seqZ_0. }
  rewrite Hflag in Hf.
  destruct (byteCountsRow i) as [row|]; [|done]. cbn in Hf.
  exists row. by simplify_eq.
Qed.
End Tables.

Lemma entryIs_spec row expected j :
  entryIs row expected j = true → row !! Z.to_nat j = Some (expected j).
Proof.
  unfold entryIs. destruct (row !! Z.to_nat j) as [c|]; [|done].
  intros ->%Z.eqb_eq. done.
Qed.

(** The class-0 row holds, for every byte value, its number of set bits. *)
Lemma byteCountsRow_prime row :
  byteCountsRow 0 = Some row →
  length row = 256%nat ∧
  ∀ j, 0 <= j <= 255 → row !! Z.to_nat j = Some (popcount 8 j).
Proof.
  intros Hrow. vm_compute in Hrow. injection Hrow as <-. split; [done|].
  intros j Hj. apply entryIs_spec.
  apply (forallb_seqZ (entryIs _ (popcount 8)) 0 256); [|lia].
  vm_compute. reflexivity.
Qed.

Section CountTables.
Context `{PrimeSieveFlags}.
Variable bitValues_ : list Z.

(** C1. When prime counting is enabled, [initLookupTables] builds
    [primeByteCounts_[0]], and for every byte value [j] in [0,255] its
    entry [primeByteCounts_[0][j]] is the number of set bits of [j]. *)
Theorem prime_count_table_is_popcount (flags : Z) :
  flag_set flags COUNT_FLAGS = true →
  flag_set flags (Z.shiftl COUNT_PRIMES 0) = true →
  ∃ tables row,
    initByteCounts flags = Some tables ∧
    (∀ r, initLookupTables bitValues_ flags = Some r → r.1 = Some tables) ∧
    tables !! 0%nat = Some (Some row) ∧
    ∀ j, 0 <= j <= 255 → row !! Z.to_nat j = Some (popcount 8 j).
Proof.
  intros Hcount Hprimes.
  destruct (initByteCounts_total flags) as [tables Htables].
  destruct (initByteCounts_lookup flags tables 0 Htables) as (row & Hrow & Hbuilt);
    [done | done |].
  exists tables, row. split_and!; [done | | done |].
  - intros r. unfold initLookupTables. rewrite Hcount, Htables. cbn.
    destruct (if flag_set flags GENERATE_FLAGS then _ else _); cbn; [|done].
    by intros [= <-].
  - by apply byteCountsRow_prime.
Qed.

End CountTables.

(** ** The early exit of the pattern scan *)

Lemma END_256 : END = 256.
Proof. reflexivity. Qed.

Lemma BYTE_SIZE_256 : BYTE_SIZE = 256.
Proof. reflexivity. Qed.

Lemma land_contained_le j p : 0 <= j → Z.land j p = p → p <= j.
Proof.
  intros Hj Hp.
  assert (Z.land (Z.ldiff j p) (Z.land j p) = 0) as Hdisj.
  { apply Z.bits_inj'. intros n Hn.
    rewrite !Z.land_spec, Z.ldiff_spec, Z.bits_0.
    destruct (Z.testbit j n), (Z.testbit p n); done. }
  pose proof (Z.add_nocarry_lor _ _ Hdisj) as Hadd.
  rewrite Z.lor_ldiff_and in Hadd.
  assert (0 <= Z.ldiff j p) by (apply Z.ldiff_nonneg; lia).
  lia.
Qed.

Lemma fullScanCount_cons p ps j :
  fullScanCount (p :: ps) j =
  (if Z.land j p =? p then 1 else 0) + fullScanCount ps j.
Proof.
  unfold fullScanCount. rewrite filter_cons.
  destruct (Z.eqb_spec (Z.land j p) p); case_decide; try done; cbn [length]; lia.
Qed.

Lemma fullScanCount_above ps j :
  0 <= j → Forall (λ p, j < p) ps → fullScanCount ps j = 0.
Proof.
  intros Hj. induction 1 as [|p ps Hp _ IH]; [done|].
  rewrite fullScanCount_cons, IH.
  destruct (Z.eqb_spec (Z.land j p) p) as [Heq|]; [|done].
  apply land_contained_le in Heq; lia.
Qed.

Lemma fullScanCount_bounds ps j :
  0 <= fullScanCount ps j <= Z.of_nat (length ps).
Proof.
  unfold fullScanCount. pose proof (length_filter (λ p, Z.land j p = p) ps). lia.
Qed.

(** On a row whose patterns ascend and stay below the sentinel, the scan
    with the early exit counts what the scan of all patterns counts. *)
Lemma countBitmasks_sorted ps rest j acc :
  StronglySorted Z.lt ps → Forall (λ p, p < END) ps →
  0 <= j < END → 0 <= acc → acc + Z.of_nat (length ps) < 2 ^ 32 →
  countBitmasks (ps ++ END :: rest) j acc = Some (acc + fullScanCount ps j).
Proof.
  intros Hsorted. revert acc.
  induction Hsorted as [|p ps _ IH Hlt]; intros acc Hend Hj Hacc Hlen.
  - cbn. destruct (Z.leb_spec END j); [lia|].
    unfold fullScanCount. cbn. f_equal. lia.
  - apply Forall_cons in Hend as [Hp Hend]. cbn [app countBitmasks length] in *.
    destruct (Z.leb_spec p j).
    + rewrite IH, fullScanCount_cons; [|done|done|..].
      * destruct (Z.land j p =? p); [rewrite u32_small|]; f_equal; lia.
      * destruct (Z.land j p =? p); [pose proof (u32_range (acc + 1))|]; lia.
      * destruct (Z.land j p =? p); [rewrite u32_small|]; lia.
    + rewrite fullScanCount_above; [f_equal; lia | lia |].
      constructor; [done|].
      eapply Forall_impl; [exact Hlt|]. cbn. lia.
Qed.

(** Every row of [bitmasks] is a strictly ascending list of patterns below
    the sentinel, followed by the sentinel. *)
Lemma bitmasks_rows (i : nat) row :
  bitmasks !! i = Some row →
  (∃ rest, row = patterns row ++ END :: rest) ∧
  StronglySorted Z.lt (patterns row) ∧
  Forall (λ p, 0 < p < END) (patterns row) ∧
  (length (patterns row) <= 8)%nat.
Proof.
  intros Hrow.
  do 7 (destruct i as [|i]; [injection Hrow as <-; split_and!;
    [eexists; vm_compute; reflexivity
    | vm_compute; repeat constructor
    | vm_compute; repeat constructor
    | vm_compute; lia ] |]).
  done.
Qed.

(** C3. For every tuplet class and every byte value [j] in [0,255], the
    scan of the class's ascending pattern list that stops at the first
    pattern above [j] yields the count of the scan of the entire list (the
    patterns [p] with [j & p = p]), which is the table entry; no pattern
    above [j] is contained in [j]. *)
Theorem early_exit_counts_all_contained (i j : Z) (row : list Z) :
  0 <= i < COUNTS_SIZE → 0 <= j <= 255 →
  bitmasks !! Z.to_nat i = Some row →
  countBitmasks row j 0 = Some (fullScanCount (patterns row) j) ∧
  (∀ p, p ∈ patterns row → j < p → Z.land j p ≠ p) ∧
  (∃ counts, byteCountsRow i = Some counts ∧
     counts !! Z.to_nat j = Some (fullScanCount (patterns row) j)).
Proof.
  intros Hi Hj Hrow.
  destruct (bitmasks_rows _ _ Hrow) as ([rest Hsplit] & Hsorted & Hrange & Hlen).
  assert (countBitmasks row j 0 = Some (fullScanCount (patterns row) j)) as Hscan.
  { rewrite Hsplit at 1. rewrite countBitmasks_sorted; try done.
    - eapply Forall_impl; [exact Hrange|]. cbn. lia.
    - rewrite END_256. lia.
    - lia. }
  split_and!; [done | |].
  - intros p _ Hlt Heq. apply land_contained_le in Heq; lia.
  - destruct (byteCountsRow_total i Hi) as [counts Hcounts].
    exists counts. split; [done|].
    unfold byteCountsRow in Hcounts. rewrite Hrow in Hcounts. cbn in Hcounts.
    destruct (mapM_lookup _ _ _ (Z.to_nat j) j Hcounts) as (c & Hc & Hf).
    { apply lookup_seqZ_0. rewrite BYTE_SIZE_256. lia. }
    congruence.
Qed.

(** ** Population count of a chunk *)

Lemma popcount_ext n x y :
  (∀ k, 0 <= k < Z.of_nat n → Z.testbit x k = Z.testbit y k) →
  popcount n x = popcount n y.
Proof.
  induction n as [|n IH]; intros Hbits; [done|].
  cbn [popcount]. rewrite IH, Hbits; [done | lia |].
  intros k Hk. apply Hbits. lia.
Qed.

Lemma popcount_S n x :
  popcount (S n) x = popcount n x + Z.b2z (Z.testbit x (Z.of_nat n)).
Proof. reflexivity. Qed.

Lemma popcount_lor_shiftl m b w :
  0 <= b < 256 →
  popcount (8 + m) (Z.lor b (Z.shiftl w 8)) = popcount 8 b + popcount m w.
Proof.
  intros Hb. induction m as [|m IH].
  - rewrite Nat.add_0_r. change (popcount 0 w) with 0. rewrite Z.add_0_r.
    apply popcount_ext. intros k Hk.
    rewrite Z.lor_spec, Z.shiftl_spec_low by lia. apply orb_false_r.
  - replace (8 + S m)%nat with (S (8 + m)) by lia.
    rewrite (popcount_S (8 + m)), (popcount_S m), IH.
    rewrite Z.lor_spec, Z.shiftl_spec by lia.
    replace (Z.of_nat (8 + m) - 8) with (Z.of_nat m) by lia.
    assert (Z.testbit b (Z.of_nat (8 + m)) = false) as ->.
    { apply (Z.bounded_iff_bits_nonneg 8); lia. }
    cbn [orb]. lia.
Qed.

Lemma popcount_wordOfBytes bs :
  popcount (8 * length bs) (wordOfBytes bs)
  = foldr (λ b acc, popcount 8 (byteZ b) + acc) 0 bs.
Proof.
  induction bs as [|b bs IH]; [done|].
  cbn [length wordOfBytes foldr].
  replace (8 * S (length bs))%nat with (8 + 8 * length bs)%nat by lia.
  rewrite popcount_lor_shiftl, IH; [done|]. apply byteZ_range.
Qed.

(** ** The two ways of counting primes *)

Lemma tableSum_app table bs1 bs2 :
  tableSum table (bs1 ++ bs2) = tableSum table bs1 + tableSum table bs2.
Proof.
  unfold tableSum. induction bs1 as [|b bs1 IH]; cbn; [done|].
  rewrite IH. lia.
Qed.

Section CountLoops.

Variable table : list Z.
Variable sieve : list byte.
Let n := Z.of_nat (length sieve).

Lemma tableLoop_spec (i0 : nat) (c0 : Z) :
  (∀ b : byte, is_Some (table !! byteIndex b)) →
  n < 2 ^ 32 → (i0 <= length sieve)%nat →
  tableLoop table sieve n (Z.of_nat i0, u32 c0)
  = Some (n, u32 (c0 + tableSum table (drop i0 sieve))).
Proof.
  intros Htable Hn Hi0. unfold tableLoop.
  destruct (while_variant
    (λ s : Z * Z, s.1 <? n)
    (λ s, b ← sieve !! Z.to_nat s.1;
          c ← table !! byteIndex b;
          Some (u32 (s.1 + 1), u32 (s.2 + c)))
    (λ s, ∃ k : nat, s.1 = Z.of_nat k ∧ (k <= length sieve)%nat ∧
          s.2 = u32 s.2 ∧
          u32 (s.2 + tableSum table (drop k sieve))
          = u32 (c0 + tableSum table (drop i0 sieve)))
    (λ s, Z.to_nat (n - s.1))) with (fuel := loopFuel n)
    (s := (Z.of_nat i0, u32 c0)) as (s' & -> & HP & Hexit).
  - intros [i c] (k & Hk & Hle & Hc & Hsum) Hcond. cbn in *. subst i.
    apply Z.ltb_lt in Hcond.
    destruct (lookup_lt_is_Some_2 sieve k) as [b Hb]; [lia|].
    rewrite Nat2Z.id, Hb. cbn.
    destruct (Htable b) as [x Hx]. rewrite Hx. cbn.
    eexists. split; [done|]. cbn. split.
    + exists (S k). pose proof (lookup_lt_Some _ _ _ Hb).
      split_and!.
      * rewrite u32_small; lia.
      * lia.
      * unfold u32. by rewrite Z.mod_mod.
      * rewrite <- Hsum, (drop_S _ _ _ Hb). unfold tableSum at 2. cbn [foldr].
        rewrite Hx. cbn. fold (tableSum table (drop (S k) sieve)).
        rewrite u32_add_l. f_equal. lia.
    + rewrite u32_small; lia.
  - cbn. exists i0. split_and!; [done | done | | ].
    + unfold u32. by rewrite Z.mod_mod.
    + by rewrite u32_add_l.
  - unfold loopFuel. cbn. lia.
  - destruct s' as [i c]. destruct HP as (k & Hk & Hle & Hc & Hsum).
    cbn in *. apply Z.ltb_ge in Hexit. subst i.
    assert (k = length sieve) as -> by lia.
    rewrite drop_all in Hsum. unfold tableSum at 1 in Hsum. cbn in Hsum.
    rewrite Z.add_0_r in Hsum. rewrite Hc, Hsum. done.
Qed.

Hypothesis table_popcount :
  ∀ b : byte, table !! byteIndex b = Some (popcount 8 (byteZ b)).

Lemma tableSum_popcount bs :
  tableSum table bs = foldr (λ b acc, popcount 8 (byteZ b) + acc) 0 bs.
Proof.
  unfold tableSum. induction bs as [|b bs IH]; cbn; [done|].
  by rewrite table_popcount, IH.
Qed.

Lemma POPCNT64_chunk (i : nat) :
  (i + 8 <= length sieve)%nat →
  POPCNT64 sieve (Z.of_nat i) = Some (tableSum table (take 8 (drop i sieve))).
Proof.
  intros Hi. unfold POPCNT64. rewrite Nat2Z.id.
  assert (length (take 8 (drop i sieve)) = 8%nat) as Hlen.
  { rewrite length_take, length_drop. lia. }
  rewrite decide_True by done. f_equal.
  rewrite tableSum_popcount, <- popcount_wordOfBytes, Hlen. done.
Qed.

(** The chunked loop stops at a multiple of 8 and has then counted the
    bits of the bytes before it. *)
Lemma popcntLoop_spec :
  n + 8 <= 2 ^ 32 →
  ∃ k : nat,
    popcntLoop sieve n (0, 0)
    = Some (Z.of_nat (k * 8), u32 (tableSum table (take (k * 8) sieve))) ∧
    (k = 0%nat ∨ Z.of_nat (k * 8) < n) ∧ n <= Z.of_nat (k * 8) + 8.
Proof.
  intros Hn. unfold popcntLoop.
  destruct (while_variant
    (λ s : Z * Z, u32 (s.1 + 8) <? n)
    (λ s, c ← POPCNT64 sieve s.1; Some (u32 (s.1 + 8), u32 (s.2 + c)))
    (λ s, ∃ k : nat, s.1 = Z.of_nat (k * 8) ∧
          (k = 0%nat ∨ Z.of_nat (k * 8) < n) ∧
          s.2 = u32 (tableSum table (take (k * 8) sieve)))
    (λ s, Z.to_nat (n - s.1))) with (fuel := loopFuel n)
    (s := (0, 0)) as (s' & -> & HP & Hexit).
  - intros [i c] (k & Hk & Hle & Hc) Hcond. cbn in *. subst i c.
    apply Z.ltb_lt in Hcond.
    rewrite u32_small in Hcond by lia.
    rewrite POPCNT64_chunk by lia. cbn.
    eexists. split; [done|]. cbn. split.
    + exists (S k). split_and!.
      * rewrite u32_small; lia.
      * right. lia.
      * rewrite u32_add_l, <- tableSum_app, take_take_drop.
        do 3 f_equal. lia.
    + rewrite u32_small; lia.
  - cbn. exists 0%nat. split_and!; [done | by left | done].
  - unfold loopFuel. cbn. lia.
  - destruct s' as [i c]. destruct HP as (k & Hk & Hle & Hc).
    cbn in *. apply Z.ltb_ge in Hexit. subst i c.
    exists k. split_and!; [done | done |].
    rewrite u32_small in Hexit; lia.
Qed.

(** After the chunked loop, the table loop completes the count of the
    whole segment. *)
Lemma popcnt_then_table :
  n + 8 <= 2 ^ 32 →
  popcntLoop sieve n (0, 0) ≫= tableLoop table sieve n
  = Some (n, u32 (tableSum table sieve)).
Proof.
  intros Hn. destruct (popcntLoop_spec Hn) as (k & -> & Hk & _).
  cbn [mbind option_bind].
  rewrite tableLoop_spec; [| by eauto | lia | lia].
  rewrite <- tableSum_app, take_drop. done.
Qed.

End CountLoops.

Lemma byteCountsRow_prime_byte table (b : byte) :
  byteCountsRow 0 = Some table →
  table !! byteIndex b = Some (popcount 8 (byteZ b)).
Proof.
  intros Htable. rewrite byteIndex_byteZ.
  apply (byteCountsRow_prime table Htable). pose proof (byteZ_range b). lia.
Qed.

Section Counting.
Context `{PrimeSieveFlags}.

Lemma countPrimes_spec (d : bool) (ps : PrimeSieve) (pnf : PrimeNumberFinder)
    (table : list Z) (sieve : list byte) :
  Z.of_nat (length sieve) + 8 <= 2 ^ 32 →
  flag_set (flags_ ps) COUNT_PRIMES = true →
  countRow pnf 0 = Some table →
  byteCountsRow 0 = Some table →
  countPrimes d ps pnf sieve (Z.of_nat (length sieve))
  = addCount ps 0 (u32 (tableSum table sieve)).
Proof.
  intros Hn Hflag Hrow Htable.
  assert (∀ b : byte, table !! byteIndex b = Some (popcount 8 (byteZ b)))
    as Hpop by (intros b; by apply byteCountsRow_prime_byte).
  unfold countPrimes. rewrite Hflag.
  destruct (d && flag_set (flags_ ps) SSE4_POPCNT).
  - pose proof (popcnt_then_table table sieve Hpop Hn) as Hfast.
    destruct (popcntLoop sieve _ (0, 0)) as [s|]; [|done].
    cbn [mbind option_bind] in *. rewrite Hrow. cbn [mbind option_bind].
    rewrite Hfast. done.
  - cbn [mbind option_bind]. rewrite Hrow. cbn [mbind option_bind].
    pose proof (tableLoop_spec table sieve 0 0) as Hspec.
    rewrite drop_0 in Hspec.
    change (Z.of_nat 0, u32 0) with (0, 0) in Hspec.
    rewrite Hspec; [done | by eauto | lia | lia].
Qed.

(** X16. For every segment of at most 2^32 - 8 bytes, which leaves the
    32-bit index arithmetic of the chunked loop in range, the plain-prime
    count of the hardware path (8-byte POPCNT chunks, then the table for
    the bytes that remain) is the count of the table path, the sum of
    [primeByteCounts_[0][sieve[i]]] over all bytes: both paths return, and
    [count] adds the same total to [counts_[0]] with and without the fast
    path. *)
Theorem popcnt_count_equals_table_count (ps : PrimeSieve)
    (pnf : PrimeNumberFinder) (table : list Z) (sieve : list byte) :
  let n := Z.of_nat (length sieve) in
  let total := u32 (tableSum table sieve) in
  n + 8 <= 2 ^ 32 →
  flag_set (flags_ ps) COUNT_PRIMES = true →
  countRow pnf 0 = Some table →
  byteCountsRow 0 = Some table →
  popcntLoop sieve n (0, 0) ≫= tableLoop table sieve n = Some (n, total) ∧
  tableLoop table sieve n (0, 0) = Some (n, total) ∧
  (∀ d, countPrimes d ps pnf sieve n = addCount ps 0 total) ∧
  count true ps pnf sieve n = count false ps pnf sieve n.
Proof.
  intros n total Hn Hflag Hrow Htable.
  assert (∀ b : byte, table !! byteIndex b = Some (popcount 8 (byteZ b)))
    as Hpop by (intros b; by apply byteCountsRow_prime_byte).
  assert (popcntLoop sieve n (0, 0) ≫= tableLoop table sieve n
          = Some (n, total)) as Hfast by (by apply popcnt_then_table).
  assert (tableLoop table sieve n (0, 0) = Some (n, total)) as Hslow.
  { pose proof (tableLoop_spec table sieve 0 0) as Hspec.
    rewrite drop_0 in Hspec. apply Hspec; [by eauto | lia | lia]. }
  assert (∀ d, countPrimes d ps pnf sieve n = addCount ps 0 total) as Hany
    by (intros d; by apply countPrimes_spec).
  split_and!; [done | done | done |].
  unfold count. by rewrite !Hany.
Qed.

End Counting.

(** C4, as amended. When the hardware path is active and the segment
    length leaves the 32-bit index arithmetic in range, the chunked loop
    stops at a multiple of 8 and leaves a tail of at most 8 bytes to the
    table path; the tail of a non-empty segment is not empty, and it has
    exactly 8 bytes when the length is a multiple of 8. *)
Theorem popcnt_tail_at_most_8 (table : list Z) (sieve : list byte) :
  let n := Z.of_nat (length sieve) in
  n + 8 <= 2 ^ 32 →
  byteCountsRow 0 = Some table →
  ∃ i c,
    popcntLoop sieve n (0, 0) = Some (i, c) ∧
    i mod 8 = 0 ∧ 0 <= i <= n ∧ n - i <= 8 ∧
    (0 < n → 1 <= n - i) ∧
    (0 < n → n mod 8 = 0 → n - i = 8) ∧
    tableLoop table sieve n (i, c)
    = Some (n, u32 (c + tableSum table (drop (Z.to_nat i) sieve))).
Proof.
  intros n Hn Htable.
  assert (∀ b : byte, table !! byteIndex b = Some (popcount 8 (byteZ b)))
    as Hpop by (intros b; by apply byteCountsRow_prime_byte).
  destruct (popcntLoop_spec table sieve Hpop Hn) as (k & Hloop & Hk & Hexit).
  fold n in Hloop, Hk, Hexit.
  exists (Z.of_nat (k * 8)), (u32 (tableSum table (take (k * 8) sieve))).
  split_and!; [done | | lia | lia | lia | lia | | ].
  - rewrite Nat2Z.inj_mul. apply Z_mod_mult.
  - intros Hpos Hmod.
    apply Z.mod_divide in Hmod; [|lia]. destruct Hmod as [q Hq]. lia.
  - rewrite Nat2Z.id, u32_add_l.
    apply tableLoop_spec; [by eauto | lia | lia].
Qed.

(** C4, as stated, fails: on a segment of 8 bytes the chunked loop does
    not run at all, and the tail left to the table path has 8 bytes. *)
Lemma popcnt_tail_of_8_bytes :
  let sieve := replicate 8 xff in
  popcntLoop sieve 8 (0, 0) = Some (0, 0) ∧
  ¬ (∃ i c, popcntLoop sieve 8 (0, 0) = Some (i, c) ∧ 8 - i <= 7).
Proof.
  split; [reflexivity|].
  intros (i & c & Hloop & Htail). vm_compute in Hloop.
  injection Hloop as <- <-. lia.
Qed.

(** ** The ladder of print flags *)

Lemma land_pow2_eqb q f :
  0 <= q → (Z.land (2 ^ q) f =? 0) = negb (Z.testbit f q).
Proof.
  intros Hq. destruct (Z.testbit f q) eqn:Hb; cbn.
  - apply Z.eqb_neq. intros Hz.
    assert (Z.testbit (Z.land (2 ^ q) f) q = true) as Hbit
      by (by rewrite Z.land_spec, Z.pow2_bits_true, Hb).
    rewrite Hz, Z.bits_0 in Hbit. done.
  - apply Z.eqb_eq, Z.bits_inj'. intros n Hn.
    rewrite Z.land_spec, Z.bits_0, Z.pow2_bits_eqb by done.
    destruct (Z.eqb_spec q n); subst; cbn; done.
Qed.

Lemma flag_set_testbit flags mask n :
  0 <= n → Z.testbit flags n = true → Z.testbit mask n = true →
  flag_set flags mask = true.
Proof.
  intros Hn Hf Hm. unfold flag_set. apply negb_true_iff, Z.eqb_neq. intros Hz.
  assert (Z.testbit (Z.land flags mask) n = true) as Hbit
    by (by rewrite Z.land_spec, Hf, Hm).
  rewrite Hz, Z.bits_0 in Hbit. done.
Qed.

Lemma u32_shiftl_pow2 q : 0 <= q → q + 1 < 32 → u32 (Z.shiftl (2 ^ q) 1) = 2 ^ (q + 1).
Proof.
  intros Hq Hlt. rewrite Z.shiftl_mul_pow2, <- Z.pow_add_r by lia.
  apply u32_small. split; [lia|]. apply Z.pow_lt_mono_r; lia.
Qed.

Lemma while_ladder {St : Type} (flags : Z) (body : St → option St) :
  ∀ (k : nat) (q : Z) (fuel : nat) (s : St),
    0 <= q → q + Z.of_nat k < 32 → (k < fuel)%nat →
    (∀ t, 0 <= t < Z.of_nat k → Z.testbit flags (q + t) = false) →
    Z.testbit flags (q + Z.of_nat k) = true →
    snd <$> while fuel
      (λ js : Z * St, Z.land js.1 flags =? 0)
      (λ js, s' ← body js.2; Some (u32 (Z.shiftl js.1 1), s'))
      (2 ^ q, s)
    = iterate k body s.
Proof.
  induction k as [|k IH]; intros q fuel s Hq Hhigh Hfuel Hlow Hset;
    (destruct fuel as [|fuel]; [lia|]); cbn [while iterate fst snd].
  - rewrite land_pow2_eqb by done.
    replace (q + Z.of_nat 0) with q in Hset by lia. by rewrite Hset.
  - rewrite land_pow2_eqb by done.
    rewrite <- (Z.add_0_r q) at 1. rewrite Hlow by lia. cbn [negb].
    destruct (body s) as [s'|]; [|done]. cbn [mbind option_bind].
    rewrite u32_shiftl_pow2 by lia. apply IH; [lia | lia | lia | |].
    + intros t Ht. replace (q + 1 + t) with (q + (1 + t)) by lia.
      apply Hlow. lia.
    + rewrite <- Hset. f_equal. lia.
Qed.

Section Ladder.
Context `{PrimeSieveFlags}.
Variable p : Z.
Hypothesis layout : FlagsLayout p.

Lemma printLadder_spec {St : Type} flags k (body : St → option St) s :
  lowestPrintFlag p flags k → printLadder flags body s = iterate k body s.
Proof.
  intros (Hk & Hset & Hlow). destruct layout as [Hbit Hp Hhigh _ _].
  unfold printLadder. rewrite Hbit. apply while_ladder; [done | lia | lia | done | done].
Qed.

Lemma testbit_print_flags n :
  0 <= n → Z.testbit PRINT_FLAGS n = bool_decide (p <= n < p + 7).
Proof.
  intros Hn. destruct layout as [_ Hp _ Hflags _].
  rewrite Hflags, Z.mul_pow2_bits by done.
  case_bool_decide as Hin.
  - assert (n - p = 0 ∨ n - p = 1 ∨ n - p = 2 ∨ n - p = 3 ∨ n - p = 4
            ∨ n - p = 5 ∨ n - p = 6) as Hcases by lia.
    destruct_or! Hcases; rewrite Hcases; done.
  - destruct (Z.lt_ge_cases (n - p) 0).
    + by apply Z.testbit_neg_r.
    + apply (Z.bounded_iff_bits_nonneg 7); lia.
Qed.

Lemma lowestPrintFlag_flag_set flags k :
  lowestPrintFlag p flags k → flag_set flags PRINT_FLAGS = true.
Proof.
  intros (Hk & Hset & _). destruct layout as [_ Hp _ _ _].
  apply (flag_set_testbit _ _ (p + Z.of_nat k)); [lia | done |].
  rewrite testbit_print_flags by lia. apply bool_decide_eq_true. lia.
Qed.

Lemma lowestPrintFlag_exists flags :
  flag_set flags PRINT_FLAGS = true → ∃ k, lowestPrintFlag p flags k.
Proof.
  intros Hflag. destruct layout as [_ Hp _ _ _].
  destruct (Z.testbit flags (p + 0)) eqn:H0;
    [exists 0%nat; split_and!; [lia | done | intros; lia] |].
  destruct (Z.testbit flags (p + 1)) eqn:H1;
    [exists 1%nat; split_and!; [lia | done | intros t ?; by replace t with 0 by lia] |].
  destruct (Z.testbit flags (p + 2)) eqn:H2;
    [exists 2%nat; split_and!; [lia | done |];
     intros t ?; assert (t = 0 ∨ t = 1) as [-> | ->] by lia; done |].
  destruct (Z.testbit flags (p + 3)) eqn:H3;
    [exists 3%nat; split_and!; [lia | done |];
     intros t ?; assert (t = 0 ∨ t = 1 ∨ t = 2) as Ht by lia;
     destruct_or! Ht; subst t; done |].
  destruct (Z.testbit flags (p + 4)) eqn:H4;
    [exists 4%nat; split_and!; [lia | done |];
     intros t ?; assert (t = 0 ∨ t = 1 ∨ t = 2 ∨ t = 3) as Ht by lia;
     destruct_or! Ht; subst t; done |].
  destruct (Z.testbit flags (p + 5)) eqn:H5;
    [exists 5%nat; split_and!; [lia | done |];
     intros t ?; assert (t = 0 ∨ t = 1 ∨ t = 2 ∨ t = 3 ∨ t = 4) as Ht by lia;
     destruct_or! Ht; subst t; done |].
  destruct (Z.testbit flags (p + 6)) eqn:H6;
    [exists 6%nat; split_and!; [lia | done |];
     intros t ?; assert (t = 0 ∨ t = 1 ∨ t = 2 ∨ t = 3 ∨ t = 4 ∨ t = 5) as Ht by lia;
     destruct_or! Ht; subst t; done |].
  exfalso. unfold flag_set in Hflag.
  apply negb_true_iff, Z.eqb_neq in Hflag. apply Hflag.
  apply Z.bits_inj'. intros n Hn.
  rewrite Z.land_spec, Z.bits_0, testbit_print_flags by done.
  case_bool_decide as Hin; [|apply andb_false_r].
  assert (n = p + 0 ∨ n = p + 1 ∨ n = p + 2 ∨ n = p + 3 ∨ n = p + 4
          ∨ n = p + 5 ∨ n = p + 6) as Hcases by lia.
  destruct_or! Hcases; subst n; rewrite ?H0, ?H1, ?H2, ?H3, ?H4, ?H5, ?H6; done.
Qed.

Lemma iterate_count (k : nat) (g : Z) :
  0 <= g → g + Z.of_nat k < 2 ^ 32 →
  iterate k (λ g, Some (u32 (g + 1))) g = Some (g + Z.of_nat k).
Proof.
  revert g. induction k as [|k IH]; intros g Hg Hk; cbn [iterate].
  - f_equal. lia.
  - cbn [mbind option_bind]. rewrite u32_small by lia.
    rewrite IH by lia. f_equal. lia.
Qed.

Lemma generateType_ladder flags k :
  lowestPrintFlag p flags k → generateType flags = Some (Z.of_nat k).
Proof.
  intros Hk. unfold generateType.
  rewrite (lowestPrintFlag_flag_set flags k Hk), (printLadder_spec flags k) by done.
  destruct Hk as (Hk & _). rewrite iterate_count by lia. done.
Qed.

Lemma generateType_range flags :
  ∃ g : nat, generateType flags = Some (Z.of_nat g) ∧ (g <= 6)%nat.
Proof.
  destruct (flag_set flags PRINT_FLAGS) eqn:Hflag.
  - destruct (lowestPrintFlag_exists flags Hflag) as [k Hk].
    exists k. split; [by apply generateType_ladder | apply Hk].
  - exists 0%nat. unfold generateType. rewrite Hflag. split; [done | lia].
Qed.

End Ladder.

(** Without any assumption on the layout: the prime class is selected
    when no print flag is set or when [PRINT_PRIMES] is set. *)
Lemma generateType_prime `{PrimeSieveFlags} flags :
  flag_set flags PRINT_FLAGS = false ∨ flag_set flags PRINT_PRIMES = true →
  generateType flags = Some 0.
Proof.
  intros Hcase. unfold generateType.
  destruct (flag_set flags PRINT_FLAGS) eqn:Hprint; [|done].
  destruct Hcase as [? | Hprimes]; [done|].
  unfold printLadder. cbn [while fst snd].
  unfold flag_set in Hprimes. rewrite Z.land_comm.
  apply negb_true_iff in Hprimes. by rewrite Hprimes.
Qed.

(** ** The rows of [primeBitValues_] *)

Lemma contained_cons i p ps :
  contained i (p :: ps)
  = if Z.land i p =? p then p :: contained i ps else contained i ps.
Proof.
  unfold contained. rewrite filter_cons.
  destruct (Z.eqb_spec (Z.land i p) p); case_decide; done.
Qed.

Lemma contained_above i ps :
  0 <= i → Forall (λ p, i < p) ps → contained i ps = [].
Proof.
  intros Hi. induction 1 as [|p ps Hp _ IH]; [done|].
  rewrite contained_cons, IH.
  destruct (Z.eqb_spec (Z.land i p) p) as [Heq|]; [|done].
  apply land_contained_le in Heq; lia.
Qed.

Lemma length_contained i ps : (length (contained i ps) <= length ps)%nat.
Proof. apply length_filter. Qed.

Lemma contained_sorted (R : relation Z) i ps :
  StronglySorted R ps → StronglySorted R (contained i ps).
Proof.
  induction 1 as [|p ps _ IH Hp]; [constructor|].
  rewrite contained_cons. destruct (Z.land i p =? p); [|done].
  constructor; [done|].
  apply Forall_forall. intros q Hq%list_elem_of_filter.
  rewrite Forall_forall in Hp. apply Hp, Hq.
Qed.

Lemma length_filled vals : (length vals <= 9)%nat → length (filled vals) = 9%nat.
Proof.
  intros Hlen. unfold filled. rewrite length_app, length_fmap, length_replicate. lia.
Qed.

Lemma store_filled vals v :
  (length vals < 9)%nat →
  store (filled vals) (Z.of_nat (length vals)) v = Some (filled (vals ++ [v])).
Proof.
  intros Hlen. unfold store. rewrite Nat2Z.id, length_filled by lia.
  rewrite decide_True by done. f_equal. unfold filled.
  rewrite insert_app_r_alt by (rewrite length_fmap; lia).
  rewrite length_fmap, Nat.sub_diag, fmap_app, length_app, <- app_assoc.
  f_equal. cbn [length fmap list_fmap app].
  replace (9 - length vals)%nat with (S (9 - (length vals + 1))) by lia.
  done.
Qed.

Section Rows.

Variable bitValues_ : list Z.

Lemma bitValuesLoop_sorted ps rest i pre :
  StronglySorted Z.lt ps → Forall (λ p, p < END) ps →
  Forall (λ p, is_Some (bitValues_ !! ntz p)) ps →
  0 <= i < END → (length pre + length ps <= 8)%nat →
  bitValuesLoop bitValues_ (ps ++ END :: rest) i (filled pre)
    (Z.of_nat (length pre))
  = Some (filled (pre ++ (bitValueOf bitValues_ <$> contained i ps)),
          Z.of_nat (length pre + length (contained i ps))).
Proof.
  intros Hsorted. revert pre.
  induction Hsorted as [|p ps _ IH Hlt]; intros pre Hend Hval Hi Hlen.
  - cbn. destruct (Z.leb_spec END i); [lia|].
    rewrite app_nil_r, Nat.add_0_r. done.
  - apply Forall_cons in Hend as [Hp Hend].
    apply Forall_cons in Hval as [[v Hv] Hval].
    cbn [app bitValuesLoop length] in *.
    destruct (Z.leb_spec p i).
    + rewrite contained_cons. destruct (Z.land i p =? p).
      * rewrite Hv. cbn [mbind option_bind].
        rewrite store_filled by lia. cbn [mbind option_bind].
        rewrite u32_small by lia.
        replace (Z.of_nat (length pre) + 1)
          with (Z.of_nat (length (pre ++ [v])))
          by (rewrite length_app; cbn; lia).
        rewrite IH; [|done|done|done|rewrite length_app; cbn; lia].
        rewrite <- app_assoc, length_app. cbn [length app fmap list_fmap].
        unfold bitValueOf at 2. rewrite Hv. cbn [default].
        do 3 f_equal. lia.
      * apply IH; [done | done | done | lia].
    + rewrite (contained_above i (p :: ps)); [|lia|].
      * rewrite fmap_nil. cbn [length]. by rewrite app_nil_r, Nat.add_0_r.
      * constructor; [done|]. eapply Forall_impl; [exact Hlt|]. cbn. lia.
Qed.

Lemma bitValuesRow_spec row i :
  (∃ rest, row = patterns row ++ END :: rest) →
  StronglySorted Z.lt (patterns row) → Forall (λ p, p < END) (patterns row) →
  Forall (λ p, is_Some (bitValues_ !! ntz p)) (patterns row) →
  (length (patterns row) <= 8)%nat → 0 <= i < END →
  bitValuesRow bitValues_ row i
  = Some (filled (rowValues bitValues_ row i ++ [END])).
Proof.
  intros [rest Hsplit] Hsorted Hend Hval Hlen Hi. unfold bitValuesRow.
  rewrite Hsplit at 1.
  pose proof (bitValuesLoop_sorted (patterns row) rest i [] Hsorted Hend Hval Hi)
    as Hloop.
  cbn [length app Nat.add] in Hloop.
  change (Z.of_nat 0) with 0 in Hloop.
  change (filled []) with (replicate 9 (@None Z)) in Hloop.
  rewrite Hloop by done. cbn [mbind option_bind].
  fold (rowValues bitValues_ row i).
  rewrite <- (length_fmap (bitValueOf bitValues_)).
  fold (rowValues bitValues_ row i).
  apply store_filled.
  unfold rowValues. rewrite length_fmap.
  pose proof (length_contained i (patterns row)). lia.
Qed.

End Rows.

Lemma mapM_ext_Some {A B : Type} (f : A → option B) (g : A → B) (l : list A) :
  (∀ x, x ∈ l → f x = Some (g x)) → mapM f l = Some (g <$> l).
Proof.
  intros Hf. apply mapM_Some_2.
  induction l as [|x l IH]; [constructor|].
  cbn. constructor.
  - apply Hf. left.
  - apply IH. intros y Hy. apply Hf. by right.
Qed.

(** The lowest set bit of every pattern is one of the 8 bits, and along
    each row these bits ascend. *)
Lemma bitmasks_rows_ntz (i : nat) row :
  bitmasks !! i = Some row →
  Forall (λ p, (ntz p < 8)%nat) (patterns row) ∧
  StronglySorted (λ a b, (ntz a < ntz b)%nat ∧ (ntz b < 8)%nat) (patterns row).
Proof.
  intros Hrow.
  do 7 (destruct i as [|i]; [injection Hrow as <-; split;
    vm_compute; repeat constructor |]).
  done.
Qed.

Lemma StronglySorted_lookup_lt (l : list Z) :
  StronglySorted Z.lt l →
  ∀ (i j : nat) x y, (i < j)%nat → l !! i = Some x → l !! j = Some y → x < y.
Proof.
  induction 1 as [|a l _ IH Ha]; intros i j x y Hij Hi Hj; [done|].
  destruct i as [|i], j as [|j]; try lia; cbn in *.
  - injection Hi as <-. rewrite Forall_lookup in Ha. by eapply Ha.
  - eapply (IH i j); [lia | done | done].
Qed.

Section BitValueTables.
Context `{PrimeSieveFlags}.
Variable bitValues_ : list Z.
Variable p : Z.
Hypothesis layout : FlagsLayout p.
Hypothesis bitValues_size : length bitValues_ = 8%nat.

Lemma bitValuesRow_of_bitmasks (g : nat) row i :
  bitmasks !! g = Some row → 0 <= i <= 255 →
  bitValuesRow bitValues_ row i
  = Some (filled (rowValues bitValues_ row i ++ [END])).
Proof.
  intros Hrow Hi.
  destruct (bitmasks_rows g row Hrow) as (Hsplit & Hsorted & Hrange & Hlen).
  destruct (bitmasks_rows_ntz g row Hrow) as (Hntz & _).
  apply bitValuesRow_spec; try done.
  - eapply Forall_impl; [exact Hrange|]. cbn. lia.
  - eapply Forall_impl; [exact Hntz|]. cbn. intros q Hq.
    apply lookup_lt_is_Some_2. lia.
  - rewrite END_256. lia.
Qed.

Lemma initBitValues_spec flags :
  ∃ (g : nat) (row : list Z) (table : list (list (option Z))),
    generateType flags = Some (Z.of_nat g) ∧ bitmasks !! g = Some row ∧
    initBitValues bitValues_ flags = Some table ∧
    ∀ b, 0 <= b <= 255 →
      table !! Z.to_nat b
      = Some (filled (rowValues bitValues_ row b ++ [END])).
Proof.
  destruct (generateType_range p layout flags) as (g & Hg & Hle).
  destruct (lookup_lt_is_Some_2 bitmasks g) as [row Hrow]; [cbn; lia|].
  exists g, row,
    ((λ b, filled (rowValues bitValues_ row b ++ [END])) <$> seqZ 0 BYTE_SIZE).
  split_and!; [done | done | |].
  - unfold initBitValues. rewrite Hg. cbn [mbind option_bind].
    rewrite Nat2Z.id, Hrow. cbn [mbind option_bind].
    apply mapM_ext_Some. intros b Hb%elem_of_seqZ.
    apply (bitValuesRow_of_bitmasks g); [done|]. rewrite BYTE_SIZE_256 in Hb. lia.
  - intros b Hb. rewrite list_lookup_fmap, lookup_seqZ_0; [done|].
    rewrite BYTE_SIZE_256. lia.
Qed.

Lemma rowValues_sorted (g : nat) row b :
  StronglySorted Z.lt bitValues_ → bitmasks !! g = Some row →
  StronglySorted Z.lt (rowValues bitValues_ row b).
Proof.
  intros Hsorted Hrow.
  destruct (bitmasks_rows_ntz g row Hrow) as (_ & Hntz).
  unfold rowValues.
  eapply StronglySorted_fmap; [|by apply contained_sorted].
  cbn. intros x y [Hxy Hy]. unfold bitValueOf.
  destruct (lookup_lt_is_Some_2 bitValues_ (ntz x)) as [vx Hx]; [lia|].
  destruct (lookup_lt_is_Some_2 bitValues_ (ntz y)) as [vy Hy']; [lia|].
  rewrite Hx, Hy'. cbn.
  by eapply (StronglySorted_lookup_lt bitValues_ Hsorted (ntz x) (ntz y)).
Qed.

Lemma rowValues_zero (g : nat) row :
  bitmasks !! g = Some row → rowValues bitValues_ row 0 = [].
Proof.
  intros Hrow.
  destruct (bitmasks_rows g row Hrow) as (_ & _ & Hrange & _).
  unfold rowValues. rewrite contained_above; [done | done |].
  eapply Forall_impl; [exact Hrange|]. cbn. lia.
Qed.

Lemma length_rowValues (g : nat) row b :
  bitmasks !! g = Some row → (length (rowValues bitValues_ row b) <= 8)%nat.
Proof.
  intros Hrow.
  destruct (bitmasks_rows g row Hrow) as (_ & _ & _ & Hlen).
  unfold rowValues. rewrite length_fmap.
  pose proof (length_contained b (patterns row)). lia.
Qed.

(** C5. For the class selected by the flags and every byte value [b] in
    [0,255], the row [primeBitValues_[b]] lists its numbers in strictly
    ascending order and ends them with the sentinel [END]; at most 8
    numbers precede the sentinel, so at most 9 of the 9 words of the row
    are written; the row of byte 0 holds the sentinel alone. *)
Theorem value_rows_ascending_and_terminated (flags : Z) :
  StronglySorted Z.lt bitValues_ →
  flag_set flags GENERATE_FLAGS = true →
  ∃ table,
    initBitValues bitValues_ flags = Some table ∧
    (∀ r, initLookupTables bitValues_ flags = Some r → r.2 = Some table) ∧
    ∀ b, 0 <= b <= 255 →
      ∃ vals,
        table !! Z.to_nat b = Some (filled (vals ++ [END])) ∧
        StronglySorted Z.lt vals ∧
        (length vals <= 8)%nat ∧ (length (vals ++ [END]) <= 9)%nat ∧
        (b = 0 → vals = []).
Proof.
  intros Hsorted Hgen.
  destruct (initBitValues_spec flags) as (g & row & table & Hg & Hrow & Htable & Hrows).
  exists table. split_and!; [done | |].
  - intros r. unfold initLookupTables. rewrite Hgen, Htable.
    destruct (if flag_set flags COUNT_FLAGS then _ else _); cbn; [|done].
    by intros [= <-].
  - intros b Hb. exists (rowValues bitValues_ row b).
    pose proof (length_rowValues g row b Hrow).
    split_and!.
    + by apply Hrows.
    + by apply (rowValues_sorted g).
    + done.
    + rewrite length_app. cbn. lia.
    + intros ->. by apply (rowValues_zero g).
Qed.

End BitValueTables.

(** ** generate *)

Lemma walkRow_spec (emit : Z → option (list Effect)) (out : Z → list Effect) row :
  rowTerminated row →
  (∀ v, v ∈ rowEntries row → emit v = Some (out v)) →
  walkRow row emit = Some (concat (out <$> rowEntries row)).
Proof.
  intros (vals & rest & ->). induction vals as [|v vals IH]; intros Hemit.
  - cbn. by rewrite Z.eqb_refl.
  - cbn [fmap list_fmap app walkRow rowEntries] in *.
    destruct (v =? END); [done|].
    rewrite Hemit by left. cbn [mbind option_bind].
    rewrite IH; [done|]. intros w Hw. apply Hemit. by right.
Qed.

Lemma filled_terminated vals : rowTerminated (filled (vals ++ [END])).
Proof.
  exists vals, (replicate (9 - length (vals ++ [END])) None).
  unfold filled. by rewrite fmap_app, <- app_assoc.
Qed.

Lemma rowEntries_terminated vals rest :
  Forall (λ v, v ≠ END) vals →
  rowEntries ((Some <$> vals ++ [END]) ++ rest) = vals.
Proof.
  induction 1 as [|v vals Hv _ IH]; cbn.
  - by rewrite Z.eqb_refl.
  - destruct (Z.eqb_spec v END); [done|]. f_equal. apply IH.
Qed.

Lemma rowEntries_filled vals :
  Forall (λ v, v ≠ END) vals → rowEntries (filled (vals ++ [END])) = vals.
Proof. apply rowEntries_terminated. Qed.

Section GenerateLoop.

Variable pnf : PrimeNumberFinder.
Variable table : list (list (option Z)).
Variable sieve : list byte.
Let n := Z.of_nat (length sieve).

Hypothesis table_built : primeBitValues_ pnf = Some table.
Hypothesis rows_terminated :
  ∀ b : byte, ∃ row, table !! byteIndex b = Some row ∧ rowTerminated row.

Lemma generateLoop_spec (segmentLow : Z)
    (emit : Z → Z → option (list Effect)) (out : Z → Z → list Effect) :
  n < 2 ^ 32 →
  (∀ byteValue (b : byte) v,
      b ∈ sieve → v ∈ rowEntries (default [] (table !! byteIndex b)) →
      emit byteValue v = Some (out byteValue v)) →
  generateLoop pnf sieve n segmentLow emit
  = Some (generated table out segmentLow sieve).
Proof.
  intros Hn Hemit. unfold generateLoop.
  destruct (while_variant
    (λ s : Z * Z * list Effect, s.1.1 <? n)
    (λ s, b ← sieve !! Z.to_nat s.1.1;
          table ← primeBitValues_ pnf;
          row ← table !! byteIndex b;
          es ← walkRow row (emit s.1.2);
          Some (u32 (s.1.1 + 1), u64 (s.1.2 + NUMBERS_PER_BYTE), s.2 ++ es))
    (λ s, ∃ k : nat, s.1.1 = Z.of_nat k ∧ (k <= length sieve)%nat ∧
          s.2 ++ generated table out s.1.2 (drop k sieve)
          = generated table out segmentLow sieve)
    (λ s, Z.to_nat (n - s.1.1))) with (fuel := loopFuel n)
    (s := (0, segmentLow, @nil Effect)) as (s' & -> & HP & Hexit).
  - intros [[i byteValue] acc] (k & Hk & Hle & Hacc) Hcond.
    cbn [fst snd] in *. subst i. apply Z.ltb_lt in Hcond.
    destruct (lookup_lt_is_Some_2 sieve k) as [b Hb]; [lia|].
    rewrite Nat2Z.id, Hb, table_built. cbn [mbind option_bind].
    destruct (rows_terminated b) as (row & Hrow & Hterm). rewrite Hrow.
    cbn [mbind option_bind].
    rewrite (walkRow_spec _ (out byteValue) row Hterm).
    2:{ intros v Hv. apply (Hemit byteValue b).
        - by eapply list_elem_of_lookup_2.
        - by rewrite Hrow. }
    cbn [mbind option_bind]. eexists. split; [done|]. cbn [fst snd]. split.
    + exists (S k). pose proof (lookup_lt_Some _ _ _ Hb). split_and!.
      * rewrite u32_small; lia.
      * lia.
      * rewrite <- Hacc, (drop_S _ _ _ Hb). cbn [generated].
        rewrite Hrow. cbn [default]. by rewrite <- app_assoc.
    + rewrite u32_small; lia.
  - exists 0%nat. cbn [fst snd]. rewrite drop_0. split_and!; [done | lia | done].
  - unfold loopFuel. cbn [fst snd]. lia.
  - destruct s' as [[i byteValue] acc]. destruct HP as (k & Hk & Hle & Hacc).
    cbn [fst snd] in *. apply Z.ltb_ge in Hexit. subst i.
    assert (k = length sieve) as -> by lia.
    rewrite drop_all in Hacc. cbn [generated] in Hacc.
    rewrite app_nil_r in Hacc. by subst acc.
Qed.

End GenerateLoop.

Section BuiltRows.

Variable bitValues_ : list Z.

(** Whatever the masks are, the loop writes the words of the row one
    after the other, from the first word on. *)
Lemma bitValuesLoop_filled bm i pre row c :
  bitValuesLoop bitValues_ bm i (filled pre) (Z.of_nat (length pre))
  = Some (row, c) →
  ∃ vals, row = filled (pre ++ vals) ∧ c = Z.of_nat (length (pre ++ vals)).
Proof.
  revert pre. induction bm as [|m bm IH]; intros pre Hloop; [done|].
  cbn [bitValuesLoop] in Hloop.
  destruct (m <=? i).
  - destruct (Z.land i m =? m).
    + destruct (bitValues_ !! ntz m) as [v|]; [|done].
      cbn [mbind option_bind] in Hloop.
      unfold store in Hloop at 1. rewrite Nat2Z.id in Hloop.
      case_decide as Hlen; [|done]. cbn [mbind option_bind] in Hloop.
      assert (length pre < 9)%nat as Hpre.
      { unfold filled in Hlen.
        rewrite length_app, length_fmap, length_replicate in Hlen. lia. }
      pose proof (store_filled pre v Hpre) as Hstore.
      unfold store in Hstore. rewrite Nat2Z.id in Hstore.
      rewrite decide_True in Hstore by done. injection Hstore as Hstore.
      rewrite Hstore in Hloop. rewrite u32_small in Hloop by lia.
      replace (Z.of_nat (length pre) + 1)
        with (Z.of_nat (length (pre ++ [v]))) in Hloop
        by (rewrite length_app; cbn; lia).
      destruct (IH _ Hloop) as (vals & -> & ->).
      exists (v :: vals). by rewrite <- app_assoc.
    + by apply IH.
  - injection Hloop as <- <-. exists []. by rewrite app_nil_r.
Qed.

Lemma bitValuesRow_terminated bm i row :
  bitValuesRow bitValues_ bm i = Some row → rowTerminated row.
Proof.
  unfold bitValuesRow. intros Hrow.
  destruct (bitValuesLoop bitValues_ bm i (replicate 9 None) 0)
    as [[row' c]|] eqn:Hloop; [|done].
  cbn [mbind option_bind] in Hrow.
  destruct (bitValuesLoop_filled bm i [] row' c Hloop) as (vals & -> & ->).
  cbn [app] in Hrow.
  unfold store in Hrow. rewrite Nat2Z.id in Hrow.
  case_decide as Hlen; [|done].
  assert (length vals < 9)%nat as Hvals.
  { unfold filled in Hlen.
    rewrite length_app, length_fmap, length_replicate in Hlen. lia. }
  pose proof (store_filled vals END Hvals) as Hstore.
  unfold store in Hstore. rewrite Nat2Z.id in Hstore.
  rewrite decide_True in Hstore by done.
  assert (row = filled (vals ++ [END])) as -> by congruence.
  apply filled_terminated.
Qed.

Lemma initBitValues_row `{PrimeSieveFlags} flags table (b : byte) :
  initBitValues bitValues_ flags = Some table →
  ∃ g bm row,
    generateType flags = Some g ∧ bitmasks !! Z.to_nat g = Some bm ∧
    table !! byteIndex b = Some row ∧
    bitValuesRow bitValues_ bm (byteZ b) = Some row.
Proof.
  unfold initBitValues. intros Hinit.
  destruct (generateType flags) as [g|]; [|done]. cbn [mbind option_bind] in Hinit.
  destruct (bitmasks !! Z.to_nat g) as [bm|] eqn:Hbm; [|done].
  cbn [mbind option_bind] in Hinit.
  destruct (mapM_lookup _ _ _ (byteIndex b) (byteZ b) Hinit) as (row & Hrow & Hf).
  { rewrite byteIndex_byteZ. apply lookup_seqZ_0.
    pose proof (byteZ_range b). rewrite BYTE_SIZE_256. lia. }
  exists g, bm, row. split_and!; done.
Qed.

Lemma initBitValues_terminated `{PrimeSieveFlags} flags table :
  initBitValues bitValues_ flags = Some table →
  ∀ b : byte, ∃ row, table !! byteIndex b = Some row ∧ rowTerminated row.
Proof.
  intros Hinit b.
  destruct (initBitValues_row flags table b Hinit) as (g & bm & row & _ & _ & Hrow & Hb).
  exists row. split; [done|]. by eapply bitValuesRow_terminated.
Qed.

End BuiltRows.

Section GeneratePlain.
Context `{PrimeSieveFlags}.
Variable bitValues_ : list Z.

Lemma generate_plain (ps : PrimeSieve) (pnf : PrimeNumberFinder)
    (table : list (list (option Z))) (segmentLow : Z) (sieve : list byte) :
  Z.of_nat (length sieve) < 2 ^ 32 →
  plainMode ps = true →
  initBitValues bitValues_ (flags_ ps) = Some table →
  primeBitValues_ pnf = Some table →
  generate ps pnf segmentLow sieve (Z.of_nat (length sieve))
  = Some (generated table
            (λ runningValue entry, [plainEffect ps (u64 (runningValue + entry))])
            segmentLow sieve).
Proof.
  intros Hn Hmode Hinit Htable.
  pose proof (initBitValues_terminated bitValues_ _ _ Hinit) as Hrows.
  unfold generate, plainMode, plainEffect in *.
  destruct (flag_set (flags_ ps) CALLBACK_PRIMES);
    [by apply (generateLoop_spec pnf table)|].
  destruct (flag_set (flags_ ps) CALLBACK_PRIMES_OOP);
    [by apply (generateLoop_spec pnf table)|].
  destruct (flag_set (flags_ ps) PRINT_PRIMES); [|done].
  by apply (generateLoop_spec pnf table).
Qed.

(** C6. With one of the three plain-prime modes active, [generate] keeps a
    running value that starts at the low value of the segment and advances
    by [NUMBERS_PER_BYTE] = 30 after each byte, and hands over, for each
    entry of the row of the current byte and in the order of the row, the
    value [runningValue + entry] (in 64-bit arithmetic). For the segment
    [[0x03]], the bits 0 and 1 standing for 7 and 11, low value 0 and the
    table of the prime class, the values handed over are 7, then 11. *)
Theorem generate_running_value (ps : PrimeSieve) (pnf : PrimeNumberFinder)
    (table : list (list (option Z))) (segmentLow : Z) (sieve : list byte) :
  Z.of_nat (length sieve) < 2 ^ 32 →
  plainMode ps = true →
  initBitValues bitValues_ (flags_ ps) = Some table →
  primeBitValues_ pnf = Some table →
  NUMBERS_PER_BYTE = 30 ∧
  generate ps pnf segmentLow sieve (Z.of_nat (length sieve))
  = Some (generated table
            (λ runningValue entry, [plainEffect ps (u64 (runningValue + entry))])
            segmentLow sieve) ∧
  (flag_set (flags_ ps) PRINT_FLAGS = false
   ∨ flag_set (flags_ ps) PRINT_PRIMES = true →
   bitValues_ !! 0%nat = Some 7 → bitValues_ !! 1%nat = Some 11 →
   generate ps pnf 0 [x03] 1 = Some [plainEffect ps 7; plainEffect ps 11]).
Proof.
  intros Hn Hmode Hinit Htable. split_and!; [done | by apply generate_plain |].
  intros Hclass Hslot0 Hslot1.
  pose proof (generate_plain ps pnf table 0 [x03]) as Hrun.
  change (Z.of_nat (length [x03])) with 1 in Hrun.
  rewrite Hrun; [|done..].
  cbn [generated]. rewrite app_nil_r.
  destruct (initBitValues_row bitValues_ _ _ x03 Hinit)
    as (g & bm & row & Hg & Hbm & Hrow & Hbuilt).
  rewrite (generateType_prime _ Hclass) in Hg. injection Hg as <-.
  injection Hbm as <-. rewrite Hrow. cbn [default].
  destruct bitValues_ as [|v0 [|v1 rest]]; [done | done |].
  injection Hslot0 as ->. injection Hslot1 as ->.
  vm_compute in Hbuilt. injection Hbuilt as <-. reflexivity.
Qed.

End GeneratePlain.

(** ** Tuplet lines *)

Lemma string_app_assoc (s t u : string) :
  ((s ++ t) ++ u = s ++ (t ++ u))%string.
Proof. induction s as [|c s IH]; cbn; [done | by rewrite IH]. Qed.

Lemma tupletMembers_nonempty n v ms : tupletMembers n v = Some ms → ms ≠ [].
Proof.
  destruct n; cbn; intros Hms.
  - by injection Hms as <-.
  - destruct (nextBitValue_ !! Z.to_nat v); [|done]. cbn in Hms.
    destruct (tupletMembers n _); [|done]. cbn in Hms. by injection Hms as <-.
Qed.

(** The members of a tuplet: [n + 1] numbers, the first one is the entry
    of the table, each further one is [nextBitValue_] of the one before. *)
Lemma tupletMembers_chain n v ms :
  tupletMembers n v = Some ms →
  length ms = S n ∧ head ms = Some v ∧
  ∀ i a, (i < n)%nat → ms !! i = Some a →
         ms !! S i = nextBitValue_ !! Z.to_nat a.
Proof.
  revert v ms. induction n as [|n IH]; intros v ms Hms; cbn in Hms.
  - injection Hms as <-. split_and!; [done | done | intros; lia].
  - destruct (nextBitValue_ !! Z.to_nat v) as [v'|] eqn:Hnext; [|done].
    cbn in Hms. destruct (tupletMembers n v') as [rest|] eqn:Hrest; [|done].
    cbn in Hms. injection Hms as <-.
    destruct (IH v' rest Hrest) as (Hlen & Hhead & Hchain).
    split_and!; [cbn; lia | done |].
    intros [|i] a Hi Ha; cbn in *.
    + injection Ha as <-. rewrite Hnext. by destruct rest.
    + apply Hchain; [lia | done].
Qed.

Lemma iterate_tuplet (byteValue : Z) (n : nat) :
  ∀ v s ms, tupletMembers n v = Some ms →
    ∃ v' s',
      iterate n
        (λ vs : Z * string,
           v' ← nextBitValue_ !! Z.to_nat vs.1;
           Some (v', (vs.2 ++ decimal (u64 (byteValue + vs.1)) ++ ", ")%string))
        (v, s) = Some (v', s') ∧
      (s' ++ decimal (u64 (byteValue + v')) = s ++ membersText byteValue ms)%string.
Proof.
  induction n as [|n IH]; intros v s ms Hms;
    cbn [tupletMembers iterate fst snd] in *.
  - injection Hms as <-. by exists v, s.
  - destruct (nextBitValue_ !! Z.to_nat v) as [w|]; [|done].
    cbn [mbind option_bind fst snd] in *.
    destruct (tupletMembers n w) as [rest|] eqn:Hrest; [|done].
    cbn [mbind option_bind] in Hms. injection Hms as <-.
    destruct (IH w (s ++ decimal (u64 (byteValue + v)) ++ ", ")%string rest Hrest)
      as (v' & s' & -> & Htext).
    exists v', s'. split; [done|]. rewrite Htext.
    pose proof (tupletMembers_nonempty n w rest Hrest).
    destruct rest as [|r rest]; [done|].
    cbn [membersText]. by rewrite !string_app_assoc.
Qed.

Section Tuplets.
Context `{PrimeSieveFlags}.
Variable bitValues_ : list Z.
Variable p : Z.
Hypothesis layout : FlagsLayout p.

Lemma emitTuplet_spec flags (k : nat) byteValue v ms :
  lowestPrintFlag p flags k → tupletMembers k v = Some ms →
  emitTuplet flags byteValue v = Some [cout (tupletLine byteValue ms)].
Proof.
  intros Hk Hms. unfold emitTuplet.
  rewrite (printLadder_spec p layout flags k) by done.
  destruct (iterate_tuplet byteValue k v "(" ms Hms) as (v' & s' & -> & Htext).
  cbn [mbind option_bind fst snd]. unfold tupletLine.
  by rewrite <- !string_app_assoc, Htext.
Qed.

Lemma generate_tuplets (ps : PrimeSieve) (pnf : PrimeNumberFinder)
    (table : list (list (option Z))) (k : nat) (segmentLow : Z)
    (sieve : list byte) :
  Z.of_nat (length sieve) < 2 ^ 32 →
  plainMode ps = false →
  lowestPrintFlag p (flags_ ps) k →
  initBitValues bitValues_ (flags_ ps) = Some table →
  primeBitValues_ pnf = Some table →
  (∀ (b : byte) v,
      b ∈ sieve → v ∈ rowEntries (default [] (table !! byteIndex b)) →
      is_Some (tupletMembers k v)) →
  generate ps pnf segmentLow sieve (Z.of_nat (length sieve))
  = Some (generated table
            (λ runningValue entry,
               [cout (tupletLine runningValue
                        (default [] (tupletMembers k entry)))])
            segmentLow sieve).
Proof.
  intros Hn Hmode Hk Hinit Htable Hchain.
  pose proof (initBitValues_terminated bitValues_ _ _ Hinit) as Hrows.
  unfold generate, plainMode in *.
  destruct (flag_set (flags_ ps) CALLBACK_PRIMES); [done|].
  destruct (flag_set (flags_ ps) CALLBACK_PRIMES_OOP); [done|].
  destruct (flag_set (flags_ ps) PRINT_PRIMES); [done|].
  apply (generateLoop_spec pnf table); [done | done | done |].
  intros byteValue b v Hb Hv.
  destruct (Hchain b v Hb Hv) as [ms Hms]. rewrite Hms. cbn [default].
  by apply (emitTuplet_spec _ k).
Qed.

(** C7. When tuplets of cardinality [k + 1] are printed, an entry of the
    table is the first member of a tuplet only; the [k] members that follow
    come from [k] successive lookups in [nextBitValue_] that start at this
    entry, and each tuplet is written as the line [(v1, v2, ..., vN)] and a
    line break. For the segment [[0x06]], twin printing, bit 1 standing for
    11 and low value 0, the output is the line [(11, 13)] and a line
    break. *)
Theorem tuplet_lines_follow_the_chain (ps : PrimeSieve)
    (pnf : PrimeNumberFinder) (table : list (list (option Z))) (k : nat)
    (segmentLow : Z) (sieve : list byte) :
  Z.of_nat (length sieve) < 2 ^ 32 →
  plainMode ps = false →
  lowestPrintFlag p (flags_ ps) k →
  initBitValues bitValues_ (flags_ ps) = Some table →
  primeBitValues_ pnf = Some table →
  ((∀ (b : byte) v,
       b ∈ sieve → v ∈ rowEntries (default [] (table !! byteIndex b)) →
       is_Some (tupletMembers k v)) →
   generate ps pnf segmentLow sieve (Z.of_nat (length sieve))
   = Some (generated table
             (λ runningValue entry,
                [cout (tupletLine runningValue
                         (default [] (tupletMembers k entry)))])
             segmentLow sieve)) ∧
  (∀ v ms, tupletMembers k v = Some ms →
     length ms = S k ∧ head ms = Some v ∧
     ∀ i a, (i < k)%nat → ms !! i = Some a →
            ms !! S i = nextBitValue_ !! Z.to_nat a) ∧
  (k = 1%nat → bitValues_ !! 1%nat = Some 11 →
   generate ps pnf 0 [x06] 1 = Some [cout ("(11, 13)" ++ newline)]).
Proof.
  intros Hn Hmode Hk Hinit Htable. split_and!.
  - by apply generate_tuplets.
  - intros v ms. apply tupletMembers_chain.
  - intros -> Hslot1.
    pose proof (generate_tuplets ps pnf table 1 0 [x06]) as Hrun.
    change (Z.of_nat (length [x06])) with 1 in Hrun.
    specialize (Hrun ltac:(lia) Hmode Hk Hinit Htable).
    destruct (initBitValues_row bitValues_ _ _ x06 Hinit)
      as (g & bm & row & Hg & Hbm & Hrow & Hbuilt).
    rewrite (generateType_ladder p layout _ 1 Hk) in Hg. injection Hg as <-.
    injection Hbm as <-.
    assert (row = [Some 11; Some END; None; None; None; None; None; None; None])
      as ->.
    { unfold bitValuesRow in Hbuilt. cbn [bitValuesLoop] in Hbuilt.
      change (ntz 6) with 1%nat in Hbuilt. rewrite Hslot1 in Hbuilt.
      vm_compute in Hbuilt. by injection Hbuilt as <-. }
    rewrite Hrun.
    + cbn [generated]. rewrite Hrow. reflexivity.
    + intros b v ->%list_elem_of_singleton Hv. rewrite Hrow in Hv.
      vm_compute in Hv. apply list_elem_of_singleton in Hv as ->.
      vm_compute. eauto.
Qed.

End Tuplets.

(** ** The emission modes *)

Lemma while_invariant {St : Type} (cond : St → bool) (body : St → option St)
    (P : St → Prop) :
  (∀ s s', P s → cond s = true → body s = Some s' → P s') →
  ∀ fuel s s', P s → while fuel cond body s = Some s' → P s'.
Proof.
  intros Hstep fuel. induction fuel as [|fuel IH]; intros s s' HP Hrun; [done|].
  cbn [while] in Hrun. destruct (cond s) eqn:Hc.
  - destruct (body s) as [s1|] eqn:Hb; [|done]. cbn in Hrun. eauto.
  - by injection Hrun as <-.
Qed.

Lemma walkRow_effects (P : Effect → Prop) (emit : Z → option (list Effect)) :
  (∀ v es, emit v = Some es → Forall P es) →
  ∀ row es, walkRow row emit = Some es → Forall P es.
Proof.
  intros Hemit row. induction row as [|[v|] row IH]; intros es Hwalk; [done| |done].
  cbn [walkRow] in Hwalk. destruct (v =? END).
  - injection Hwalk as <-. constructor.
  - destruct (emit v) as [es1|] eqn:Hv; [|done]. cbn in Hwalk.
    destruct (walkRow row emit) as [es2|]; [|done]. cbn in Hwalk.
    injection Hwalk as <-. apply Forall_app. eauto.
Qed.

Lemma generateLoop_effects (P : Effect → Prop) pnf sieve sieveSize segmentLow
    (emit : Z → Z → option (list Effect)) :
  (∀ byteValue v es, emit byteValue v = Some es → Forall P es) →
  ∀ es, generateLoop pnf sieve sieveSize segmentLow emit = Some es →
        Forall P es.
Proof.
  intros Hemit es. unfold generateLoop. intros Hrun.
  destruct (while _ _ _ _) as [s|] eqn:Hwhile; [|done].
  cbn in Hrun. injection Hrun as <-.
  eapply (while_invariant _ _ (λ s : Z * Z * list Effect, Forall P s.2))
    in Hwhile; [done | | constructor].
  intros [[i byteValue] acc] s' Hacc _ Hbody. cbn [fst snd] in *.
  destruct (sieve !! Z.to_nat i) as [b|]; [|done]. cbn in Hbody.
  destruct (primeBitValues_ pnf) as [table|]; [|done]. cbn in Hbody.
  destruct (table !! byteIndex b) as [row|]; [|done]. cbn in Hbody.
  destruct (walkRow row (emit byteValue)) as [es|] eqn:Hwalk; [|done].
  cbn in Hbody. injection Hbody as <-. cbn [snd].
  apply Forall_app. split; [done|].
  eapply walkRow_effects; [|exact Hwalk]. apply Hemit.
Qed.

Lemma decimal_first_char v :
  ∃ c rest, decimal v = String c rest ∧ c ≠ "("%char.
Proof.
  unfold decimal. destruct (N.to_uint (Z.to_N v)); cbn; eauto.
Qed.

Lemma effectOfMode_disjoint m1 m2 e :
  effectOfMode m1 e → effectOfMode m2 e → m1 = m2.
Proof.
  destruct m1, m2, e; cbn; try done.
  - intros [v ->] [body Hbody].
    destruct (decimal_first_char v) as (c & rest & Hc & Hne).
    rewrite Hc in Hbody. cbn in Hbody. by injection Hbody.
  - intros [body Hbody] [v ->].
    destruct (decimal_first_char v) as (c & rest & Hc & Hne).
    rewrite Hc in Hbody. cbn in Hbody. by injection Hbody.
Qed.

Section Modes.
Context `{PrimeSieveFlags}.

Lemma printLadder_text flags (body : Z * string → option (Z * string))
    (v : Z) vs :
  (∀ s s', body s = Some s' → ∃ t, s'.2 = (s.2 ++ t)%string) →
  printLadder flags body (v, "("%string) = Some vs →
  ∃ t, vs.2 = ("(" ++ t)%string.
Proof.
  intros Hbody. unfold printLadder. intros Hrun.
  destruct (while _ _ _ _) as [js|] eqn:Hwhile; [|done].
  cbn in Hrun. injection Hrun as <-.
  eapply (while_invariant _ _
    (λ js : Z * (Z * string), ∃ t, js.2.2 = ("(" ++ t)%string)) in Hwhile;
    [done | | by exists ""%string].
  intros [j s] js' [t Ht] _ Hstep. cbn [fst snd] in *.
  destruct (body s) as [s'|] eqn:Hs; [|done]. cbn in Hstep.
  injection Hstep as <-. cbn [snd].
  destruct (Hbody s s' Hs) as [t' Ht']. rewrite Ht', Ht.
  exists (t ++ t')%string. by rewrite string_app_assoc.
Qed.

Lemma emitter_effects ps m byteValue v es :
  emitter ps m byteValue v = Some es → Forall (effectOfMode m) es.
Proof.
  destruct m; cbn [emitter].
  - intros [= <-]. by repeat constructor.
  - intros [= <-]. by repeat constructor.
  - intros [= <-]. repeat constructor. by eexists.
  - unfold emitTuplet. intros Hemit.
    destruct (printLadder _ _ _) as [vs|] eqn:Hladder; [|done].
    cbn in Hemit. injection Hemit as <-.
    apply printLadder_text in Hladder as [t Ht].
    + repeat constructor. cbn. rewrite Ht. eexists.
      by rewrite string_app_assoc.
    + intros s s' Hs. destruct (nextBitValue_ !! Z.to_nat s.1); [|done].
      cbn in Hs. injection Hs as <-. cbn [snd]. by eexists.
Qed.

Lemma generate_branch ps pnf segmentLow sieve sieveSize :
  generate ps pnf segmentLow sieve sieveSize
  = generateLoop pnf sieve sieveSize segmentLow (emitter ps (selectedMode ps)).
Proof.
  unfold generate, selectedMode.
  by destruct (flag_set (flags_ ps) CALLBACK_PRIMES),
    (flag_set (flags_ ps) CALLBACK_PRIMES_OOP),
    (flag_set (flags_ ps) PRINT_PRIMES).
Qed.

Lemma generate_effects ps pnf segmentLow sieve sieveSize es :
  generate ps pnf segmentLow sieve sieveSize = Some es →
  Forall (effectOfMode (selectedMode ps)) es.
Proof.
  rewrite generate_branch. apply generateLoop_effects.
  intros byteValue v es'. apply emitter_effects.
Qed.

(** C10. [generate] runs the loop of one emission mode only, the one
    selected by the precedence function callback, bound-object callback,
    printing of primes, tuplet printing; every effect of the call belongs
    to that mode, whatever other flags are set, and the tuplet branch is
    taken exactly when none of the three prime flags is set. *)
Theorem generate_runs_one_mode (ps : PrimeSieve) (pnf : PrimeNumberFinder)
    (segmentLow : Z) (sieve : list byte) (sieveSize : Z) :
  generate ps pnf segmentLow sieve sieveSize
  = generateLoop pnf sieve sieveSize segmentLow (emitter ps (selectedMode ps)) ∧
  (∀ byteValue v es,
     emitter ps (selectedMode ps) byteValue v = Some es →
     Forall (effectOfMode (selectedMode ps)) es) ∧
  (∀ es, generate ps pnf segmentLow sieve sieveSize = Some es →
         Forall (effectOfMode (selectedMode ps)) es) ∧
  (∀ m1 m2 e, effectOfMode m1 e → effectOfMode m2 e → m1 = m2) ∧
  (flag_set (flags_ ps) CALLBACK_PRIMES = true →
   selectedMode ps = FunctionCallback) ∧
  (flag_set (flags_ ps) CALLBACK_PRIMES = false →
   flag_set (flags_ ps) CALLBACK_PRIMES_OOP = true →
   selectedMode ps = ObjectCallback) ∧
  (flag_set (flags_ ps) CALLBACK_PRIMES = false →
   flag_set (flags_ ps) CALLBACK_PRIMES_OOP = false →
   flag_set (flags_ ps) PRINT_PRIMES = true →
   selectedMode ps = PrintPrimes) ∧
  (selectedMode ps = PrintTuplets ↔ plainMode ps = false).
Proof.
  split_and!.
  - apply generate_branch.
  - intros byteValue v es. apply emitter_effects.
  - intros es. apply generate_effects.
  - apply effectOfMode_disjoint.
  - unfold selectedMode. by intros ->.
  - unfold selectedMode. by intros -> ->.
  - unfold selectedMode. by intros -> -> ->.
  - unfold selectedMode, plainMode.
    by destruct (flag_set (flags_ ps) CALLBACK_PRIMES),
      (flag_set (flags_ ps) CALLBACK_PRIMES_OOP),
      (flag_set (flags_ ps) PRINT_PRIMES).
Qed.

End Modes.

(** ** count and generate on the tables of the constructor *)

Lemma forEach_invariant {A St : Type} (P : St → Prop) (l : list A)
    (body : A → St → option St) :
  (∀ x s, x ∈ l → P s → ∃ s', body x s = Some s' ∧ P s') →
  ∀ s, P s → ∃ s', forEach l body s = Some s' ∧ P s'.
Proof.
  induction l as [|x l IH]; intros Hbody s HP; cbn [forEach]; [by eauto|].
  destruct (Hbody x s) as (s1 & -> & HP1); [left | done |].
  cbn [mbind option_bind]. apply IH; [|done].
  intros y s' Hy. apply Hbody. by right.
Qed.

Lemma byteCountsRow_defined i row (b : byte) :
  byteCountsRow i = Some row → is_Some (row !! byteIndex b).
Proof.
  unfold byteCountsRow. intros Hrow.
  destruct (bitmasks !! Z.to_nat i) as [bm|]; [|done]. cbn in Hrow.
  apply length_mapM in Hrow. rewrite length_seqZ, BYTE_SIZE_256 in Hrow.
  apply lookup_lt_is_Some_2. rewrite byteIndex_byteZ.
  pose proof (byteZ_range b). lia.
Qed.

Lemma addCount_defined ps i n :
  (Z.to_nat i < length (counts_ ps))%nat →
  ∃ ps', addCount ps i n = Some ps' ∧ flags_ ps' = flags_ ps ∧
         cbObj_ ps' = cbObj_ ps ∧ length (counts_ ps') = length (counts_ ps).
Proof.
  intros Hi. unfold addCount.
  destruct (lookup_lt_is_Some_2 (counts_ ps) (Z.to_nat i) Hi) as [c ->].
  cbn [mbind option_bind]. eexists. split; [done|].
  cbn. by rewrite length_insert.
Qed.

Section Stages.
Context `{PrimeSieveFlags}.

Lemma count_total (d : bool) (ps : PrimeSieve) (pnf : PrimeNumberFinder)
    (tables : list (option (list Z))) (sieve : list byte) :
  Z.of_nat (length sieve) + 8 <= 2 ^ 32 →
  length (counts_ ps) = 7%nat →
  initByteCounts (flags_ ps) = Some tables →
  primeByteCounts_ pnf = Some tables →
  ∃ ps', count d ps pnf sieve (Z.of_nat (length sieve)) = Some ps' ∧
         flags_ ps' = flags_ ps ∧ cbObj_ ps' = cbObj_ ps.
Proof.
  intros Hn Hcounts Hinit Hpnf. unfold count.
  assert (∀ i, 0 <= i < COUNTS_SIZE →
            flag_set (flags_ ps) (Z.shiftl COUNT_PRIMES i) = true →
            ∃ row, countRow pnf i = Some row ∧ byteCountsRow i = Some row)
    as Hrows.
  { intros i Hi Hflag.
    destruct (initByteCounts_lookup _ _ i Hinit Hi Hflag) as (row & Hrow & Hbuilt).
    exists row. split; [|done]. unfold countRow. rewrite Hpnf. cbn.
    rewrite Hrow. done. }
  assert (∃ ps1, countPrimes d ps pnf sieve (Z.of_nat (length sieve)) = Some ps1
                 ∧ flags_ ps1 = flags_ ps ∧ cbObj_ ps1 = cbObj_ ps
                 ∧ length (counts_ ps1) = 7%nat) as (ps1 & -> & Hf1 & Hcb1 & Hlen1).
  { destruct (flag_set (flags_ ps) COUNT_PRIMES) eqn:Hflag.
    - destruct (Hrows 0) as (row & Hrow & Hbuilt);
        [unfold COUNTS_SIZE; lia | by rewrite Z.shiftl_0_r |].
      rewrite (countPrimes_spec d ps pnf row sieve) by done.
      destruct (addCount_defined ps 0 (u32 (tableSum row sieve)))
        as (ps1 & -> & ? & ? & ?); [rewrite Hcounts; cbn; lia|].
      exists ps1. split_and!; [done | done | done | congruence].
    - exists ps. unfold countPrimes. rewrite Hflag. done. }
  cbn [mbind option_bind]. unfold countTuplets.
  destruct (forEach_invariant
    (λ ps' : PrimeSieve, flags_ ps' = flags_ ps ∧ cbObj_ ps' = cbObj_ ps
                         ∧ length (counts_ ps') = 7%nat)
    (seqZ 1 (COUNTS_SIZE - 1))
    (λ i ps',
       if flag_set (flags_ ps') (Z.shiftl COUNT_PRIMES i) then
         table ← countRow pnf i;
         s' ← tableLoop table sieve (Z.of_nat (length sieve)) (0, 0);
         addCount ps' i s'.2
       else Some ps')) with (s := ps1) as (ps2 & -> & Hf2 & Hcb2 & _);
    [| done | by exists ps2].
  intros i ps' Hi%elem_of_seqZ (Hf & Hcb & Hlen). unfold COUNTS_SIZE in Hi.
  rewrite Hf. destruct (flag_set (flags_ ps) _) eqn:Hflag; [|by eauto].
  destruct (Hrows i) as (row & -> & Hbuilt); [unfold COUNTS_SIZE; lia | done |].
  cbn [mbind option_bind].
  pose proof (tableLoop_spec row sieve 0 0) as Hspec.
  change (Z.of_nat 0, u32 0) with (0, 0) in Hspec.
  rewrite Hspec; [| intros b; by eapply byteCountsRow_defined | lia | lia].
  cbn [mbind option_bind snd].
  destruct (addCount_defined ps' i (u32 (0 + tableSum row (drop 0 sieve))))
    as (ps3 & -> & ? & ? & ?); [lia|].
  exists ps3. split_and!; [done | congruence | congruence | congruence].
Qed.

Lemma chainClosed_wheel30 (k : nat) (b : Z) :
  (k <= 6)%nat → 0 <= b <= 255 → chainClosed wheel30 k b = true.
Proof.
  intros Hk Hb.
  assert (forallb (λ k, forallb (chainClosed wheel30 k) (seqZ 0 256)) (seq 0 7)
          = true) as Hall by (vm_compute; reflexivity).
  rewrite forallb_forall in Hall.
  apply (forallb_seqZ _ 0 256); [|lia].
  apply Hall, in_seq. lia.
Qed.

Lemma print_flag_of_generate_flags p flags :
  FlagsLayout p →
  flag_set flags GENERATE_FLAGS = true →
  flag_set flags CALLBACK_PRIMES = false →
  flag_set flags CALLBACK_PRIMES_OOP = false →
  flag_set flags PRINT_FLAGS = true.
Proof.
  intros [_ _ _ _ Hgen]. unfold flag_set. rewrite Hgen.
  intros Hnz%negb_true_iff%Z.eqb_neq Hcb%negb_false_iff%Z.eqb_eq
         Hoop%negb_false_iff%Z.eqb_eq.
  apply negb_true_iff, Z.eqb_neq. intros Hprint. apply Hnz.
  by rewrite !Z.land_lor_distr_r, Hprint, Hcb, Hoop.
Qed.

Lemma generate_total p (ps : PrimeSieve) (pnf : PrimeNumberFinder)
    (table : list (list (option Z))) (segmentLow : Z) (sieve : list byte) :
  FlagsLayout p →
  Z.of_nat (length sieve) < 2 ^ 32 →
  flag_set (flags_ ps) GENERATE_FLAGS = true →
  initBitValues wheel30 (flags_ ps) = Some table →
  primeBitValues_ pnf = Some table →
  ∃ es, generate ps pnf segmentLow sieve (Z.of_nat (length sieve)) = Some es ∧
        Forall (effectOfMode (selectedMode ps)) es.
Proof.
  intros layout Hn Hgen Hinit Hpnf.
  assert (is_Some (generate ps pnf segmentLow sieve (Z.of_nat (length sieve))))
    as [es Hes]; [|by eauto using generate_effects].
  destruct (plainMode ps) eqn:Hmode.
  { by rewrite (generate_plain wheel30 ps pnf table). }
  assert (flag_set (flags_ ps) PRINT_FLAGS = true) as Hprint.
  { unfold plainMode in Hmode.
    apply orb_false_iff in Hmode as [Hmode _].
    apply orb_false_iff in Hmode as [Hcb Hoop].
    by apply (print_flag_of_generate_flags p). }
  destruct (lowestPrintFlag_exists p layout _ Hprint) as [k Hk].
  rewrite (generate_tuplets wheel30 p layout ps pnf table k); [done..|].
  intros b v _ Hv.
  destruct (initBitValues_spec wheel30 p layout eq_refl (flags_ ps))
    as (g & row & table' & Hg & Hrow & Hinit' & Hrows).
  assert (table' = table) as -> by congruence.
  rewrite (generateType_ladder p layout _ k Hk) in Hg.
  assert (g = k) as -> by (injection Hg; lia).
  pose proof (byteZ_range b) as Hb.
  rewrite byteIndex_byteZ, Hrows in Hv by lia. cbn [default from_option id] in Hv.
  pose proof (chainClosed_wheel30 k (byteZ b) ltac:(apply Hk) ltac:(lia))
    as Hclosed.
  unfold chainClosed in Hclosed. rewrite Hrow in Hclosed. cbn [default from_option id] in Hclosed.
  rewrite forallb_forall in Hclosed.
  rewrite rowEntries_filled in Hv.
  - apply list_elem_of_In, Hclosed in Hv.
    apply andb_true_iff in Hv as [_ Hv]. by apply bool_decide_eq_true in Hv.
  - apply Forall_forall. intros w Hw%list_elem_of_In%Hclosed.
    apply andb_true_iff in Hw as [Hw _].
    apply negb_true_iff, Z.eqb_neq in Hw. done.
Qed.

End Stages.

(** ** analyseSieve *)

Section Dispatch.
Context `{PrimeSieveFlags}.

(** X17. On the tables built by the constructor and a segment of at most
    2^32 - 8 bytes, [analyseSieve] calls [count] if and only if a count
    flag is set, calls [generate] if and only if a generate flag is set,
    and in every case ends, after these calls, with a single report: the
    32-bit product of the length and 30, which is [length * 30] as long as
    this is below 2^32. *)
Theorem analyseSieve_dispatch (p : Z) (d : bool) (ps : PrimeSieve)
    (pnf : PrimeNumberFinder) (segmentLow : Z) (sieve : list byte) :
  let n := Z.of_nat (length sieve) in
  FlagsLayout p →
  n + 8 <= 2 ^ 32 →
  length (counts_ ps) = 7%nat →
  initLookupTables wheel30 (flags_ ps)
  = Some (primeByteCounts_ pnf, primeBitValues_ pnf) →
  ∃ ps' countPart generatePart,
    analyseSieve d ps pnf segmentLow sieve n
    = Some (ps', countPart ++ generatePart ++ [doStatus (u32 (n * 30))]) ∧
    (n * 30 < 2 ^ 32 → u32 (n * 30) = n * 30) ∧
    (if flag_set (flags_ ps) COUNT_FLAGS
     then count d ps pnf sieve n = Some ps' ∧ countPart = [call_count]
     else ps' = ps ∧ countPart = []) ∧
    (if flag_set (flags_ ps) GENERATE_FLAGS
     then ∃ es, generate ps' pnf segmentLow sieve n = Some es ∧
                Forall (effectOfMode (selectedMode ps)) es ∧
                generatePart = call_generate :: es
     else generatePart = []) ∧
    (call_count ∈ countPart ++ generatePart
     ↔ flag_set (flags_ ps) COUNT_FLAGS = true) ∧
    (call_generate ∈ countPart ++ generatePart
     ↔ flag_set (flags_ ps) GENERATE_FLAGS = true) ∧
    (∀ x, doStatus x ∉ countPart ++ generatePart).
Proof.
  intros n layout Hn Hcounts Hinit.
  assert (∃ ps' countPart,
            (if flag_set (flags_ ps) COUNT_FLAGS
             then ps'' ← count d ps pnf sieve n; Some (ps'', [call_count])
             else Some (ps, [])) = Some (ps', countPart) ∧
            (if flag_set (flags_ ps) COUNT_FLAGS
             then count d ps pnf sieve n = Some ps' ∧ countPart = [call_count]
             else ps' = ps ∧ countPart = []) ∧
            flags_ ps' = flags_ ps)
    as (ps' & countPart & Hcounted & Hcount & Hflags).
  { unfold initLookupTables in Hinit.
    destruct (flag_set (flags_ ps) COUNT_FLAGS); [|by exists ps, []].
    destruct (initByteCounts (flags_ ps)) as [tables|] eqn:Htables; [|done].
    cbn [fmap option_fmap option_map mbind option_bind] in Hinit.
    destruct (if flag_set (flags_ ps) GENERATE_FLAGS then _ else _); [|done].
    cbn [mbind option_bind] in Hinit. injection Hinit as Hc _.
    destruct (count_total d ps pnf tables sieve) as (ps' & Hps' & Hf & _);
      [lia | done | done | done |].
    exists ps', [call_count]. fold n in Hps'. rewrite Hps'. done. }
  assert (∃ generatePart,
            (if flag_set (flags_ ps') GENERATE_FLAGS
             then es ← generate ps' pnf segmentLow sieve n;
                  Some (call_generate :: es)
             else Some []) = Some generatePart ∧
            (if flag_set (flags_ ps) GENERATE_FLAGS
             then ∃ es, generate ps' pnf segmentLow sieve n = Some es ∧
                        Forall (effectOfMode (selectedMode ps)) es ∧
                        generatePart = call_generate :: es
             else generatePart = []))
    as (generatePart & Hgenerated & Hgen).
  { rewrite Hflags. unfold initLookupTables in Hinit.
    destruct (flag_set (flags_ ps) GENERATE_FLAGS) eqn:Hflag; [|by exists []].
    destruct (if flag_set (flags_ ps) COUNT_FLAGS then _ else _); [|done].
    cbn [mbind option_bind] in Hinit.
    destruct (initBitValues wheel30 (flags_ ps)) as [table|] eqn:Htable; [|done].
    cbn [fmap option_fmap option_map mbind option_bind] in Hinit.
    injection Hinit as _ Hv.
    destruct (generate_total p ps' pnf table segmentLow sieve)
      as (es & Hes & Heffects); [done | lia | by rewrite Hflags
                                | by rewrite Hflags | done |].
    fold n in Hes. rewrite Hes. exists (call_generate :: es).
    split; [done|]. exists es. split_and!; [done | | done].
    unfold selectedMode in *. by rewrite Hflags in Heffects. }
  exists ps', countPart, generatePart.
  split_and!; [| | done | done | split | split |].
  - unfold analyseSieve. rewrite Hcounted. cbn [mbind option_bind fst snd].
    rewrite Hgenerated. cbn [mbind option_bind]. done.
  - intros Hsmall. apply u32_small. lia.
  - destruct (flag_set (flags_ ps) COUNT_FLAGS); [done|].
    destruct Hcount as [_ ->]. cbn [app].
    destruct (flag_set (flags_ ps) GENERATE_FLAGS).
    + destruct Hgen as (es & _ & Heffects & ->).
      intros [|Hin]%elem_of_cons; [done|].
      rewrite Forall_forall in Heffects. apply Heffects in Hin.
      by destruct (selectedMode ps).
    + subst generatePart. by intros ?%elem_of_nil.
  - destruct (flag_set (flags_ ps) COUNT_FLAGS); [|done].
    destruct Hcount as [_ ->]. intros _. left.
  - destruct (flag_set (flags_ ps) GENERATE_FLAGS); [done|].
    subst generatePart. rewrite app_nil_r.
    destruct (flag_set (flags_ ps) COUNT_FLAGS); destruct Hcount as [_ ->].
    + by intros ?%list_elem_of_singleton.
    + by intros ?%elem_of_nil.
  - destruct (flag_set (flags_ ps) GENERATE_FLAGS); [|done].
    destruct Hgen as (es & _ & _ & ->). intros _.
    apply elem_of_app. right. left.
  - intros x Hin. apply elem_of_app in Hin as [Hin|Hin].
    + destruct (flag_set (flags_ ps) COUNT_FLAGS); destruct Hcount as [_ ->].
      * by apply list_elem_of_singleton in Hin.
      * by apply elem_of_nil in Hin.
    + destruct (flag_set (flags_ ps) GENERATE_FLAGS).
      * destruct Hgen as (es & _ & Heffects & ->).
        apply elem_of_cons in Hin as [|Hin]; [done|].
        rewrite Forall_forall in Heffects. apply Heffects in Hin.
        by destruct (selectedMode ps).
      * subst generatePart. by apply elem_of_nil in Hin.
Qed.

End Dispatch.

(** ** The values of the wheel 7, 11, ..., 31 *)

Lemma wheel30_rowValues_range (g : nat) row b :
  bitmasks !! g = Some row →
  Forall (λ v, 7 <= v <= 31) (rowValues wheel30 row b).
Proof.
  intros Hrow. destruct (bitmasks_rows_ntz g row Hrow) as (Hntz & _).
  unfold rowValues. apply Forall_fmap, Forall_forall.
  intros q Hq%list_elem_of_filter. destruct Hq as [_ Hq].
  rewrite Forall_forall in Hntz. apply Hntz in Hq.
  unfold compose, bitValueOf, wheel30.
  destruct (ntz q) as [|[|[|[|[|[|[|[|n]]]]]]]]; cbn; lia.
Qed.


(* ================================================================== *)
(** * The theorems at concrete inputs *)
(* ================================================================== *)

Lemma exampleFlags_layout : @FlagsLayout exampleFlags 7.
Proof. split; cbn; first [reflexivity | lia]. Qed.

Lemma prime_count_table_is_popcount_witness :
  flag_set 1 (@COUNT_FLAGS exampleFlags) = true ∧
  flag_set 1 (Z.shiftl (@COUNT_PRIMES exampleFlags) 0) = true ∧
  ∃ tables row,
    @initByteCounts exampleFlags 1 = Some tables ∧
    (∀ r, @initLookupTables exampleFlags wheel30 1 = Some r → r.1 = Some tables) ∧
    tables !! 0%nat = Some (Some row) ∧
    ∀ j, 0 <= j <= 255 → row !! Z.to_nat j = Some (popcount 8 j).
Proof.
  split; [reflexivity|]. split; [reflexivity|].
  apply (@prime_count_table_is_popcount exampleFlags wheel30 1); reflexivity.
Defined.

Lemma popcnt_count_equals_table_count_witness :
  let ps := examplePrimeSieve 65537 in
  let pnf := exampleFinder 65537 in
  let sieve := [x03; xff; x01; x01; x01; x01; x01; x01; x01; x01; x01] in
  @count exampleFlags true ps pnf sieve 11
  = @count exampleFlags false ps pnf sieve 11.
Proof.
  intros ps pnf sieve.
  apply (@popcnt_count_equals_table_count exampleFlags ps pnf
           (default [] (byteCountsRow 0)) sieve).
  - vm_compute. discriminate.
  - reflexivity.
  - vm_compute. reflexivity.
  - vm_compute. reflexivity.
Defined.

Lemma early_exit_counts_all_contained_witness :
  countBitmasks [0x06; 0x18; 0xc0; END; 0; 0; 0; 0; 0] 0x1e 0
  = Some (fullScanCount (patterns [0x06; 0x18; 0xc0; END; 0; 0; 0; 0; 0]) 0x1e).
Proof.
  apply (early_exit_counts_all_contained 1 0x1e
           [0x06; 0x18; 0xc0; END; 0; 0; 0; 0; 0]).
  - unfold COUNTS_SIZE. lia.
  - lia.
  - reflexivity.
Defined.

Lemma popcnt_tail_at_most_8_witness :
  ∃ i c,
    popcntLoop (replicate 16 xff) 16 (0, 0) = Some (i, c) ∧
    i mod 8 = 0 ∧ 0 <= i <= 16 ∧ 16 - i <= 8 ∧
    (0 < 16 → 1 <= 16 - i) ∧
    (0 < 16 → 16 mod 8 = 0 → 16 - i = 8) ∧
    tableLoop (default [] (byteCountsRow 0)) (replicate 16 xff) 16 (i, c)
    = Some (16, u32 (c + tableSum (default [] (byteCountsRow 0))
                           (drop (Z.to_nat i) (replicate 16 xff)))).
Proof.
  apply (popcnt_tail_at_most_8 (default [] (byteCountsRow 0)) (replicate 16 xff)).
  - vm_compute. discriminate.
  - vm_compute. reflexivity.
Defined.

Lemma value_rows_ascending_and_terminated_witness :
  ∃ table,
    @initBitValues exampleFlags wheel30 256 = Some table ∧
    (∀ r, @initLookupTables exampleFlags wheel30 256 = Some r →
          r.2 = Some table) ∧
    ∀ b, 0 <= b <= 255 →
      ∃ vals,
        table !! Z.to_nat b = Some (filled (vals ++ [END])) ∧
        StronglySorted Z.lt vals ∧
        (length vals <= 8)%nat ∧ (length (vals ++ [END]) <= 9)%nat ∧
        (b = 0 → vals = []).
Proof.
  apply (@value_rows_ascending_and_terminated exampleFlags wheel30 7).
  - split; cbn; first [reflexivity | lia].
  - reflexivity.
  - unfold wheel30. repeat constructor.
  - reflexivity.
Defined.

Lemma generate_running_value_witness :
  let ps := examplePrimeSieve 128 in
  @generate exampleFlags ps (exampleFinder 128) 0 [x03] 1
  = Some [@plainEffect exampleFlags ps 7; @plainEffect exampleFlags ps 11].
Proof.
  intros ps.
  apply (@generate_running_value exampleFlags wheel30 ps (exampleFinder 128)
           (default [] (@initBitValues exampleFlags wheel30 128)) 0 [x03]).
  - vm_compute. reflexivity.
  - reflexivity.
  - vm_compute. reflexivity.
  - vm_compute. reflexivity.
  - right. reflexivity.
  - reflexivity.
  - reflexivity.
Defined.

Lemma tuplet_lines_follow_the_chain_witness :
  let ps := examplePrimeSieve 256 in
  @generate exampleFlags ps (exampleFinder 256) 0 [x06] 1
  = Some [cout ("(11, 13)" ++ newline)].
Proof.
  intros ps.
  apply (@tuplet_lines_follow_the_chain exampleFlags wheel30 7
           ltac:(split; cbn; first [reflexivity | lia]) ps (exampleFinder 256)
           (default [] (@initBitValues exampleFlags wheel30 256)) 1 0 [x06]).
  - vm_compute. reflexivity.
  - reflexivity.
  - split; [lia|]. split; [reflexivity|].
    intros t Ht. assert (t = 0) as -> by lia. reflexivity.
  - vm_compute. reflexivity.
  - vm_compute. reflexivity.
  - reflexivity.
  - reflexivity.
Defined.

Lemma analyseSieve_dispatch_witness :
  let ps := examplePrimeSieve 259 in
  ∃ ps' countPart generatePart,
    @analyseSieve exampleFlags true ps (exampleFinder 259) 0 [x06; xff] 2
    = Some (ps', countPart ++ generatePart ++ [doStatus 60]) ∧
    (call_count ∈ countPart ++ generatePart) ∧
    (call_generate ∈ countPart ++ generatePart).
Proof.
  intros ps.
  destruct (@analyseSieve_dispatch exampleFlags 7 true ps (exampleFinder 259)
              0 [x06; xff])
    as (ps' & c & g & Hrun & _ & _ & _ & Hc & Hg & _).
  - split; cbn; first [reflexivity | lia].
  - vm_compute. discriminate.
  - reflexivity.
  - vm_compute. reflexivity.
  - exists ps', c, g. split; [exact Hrun|]. split.
    + apply Hc. reflexivity.
    + apply Hg. reflexivity.
Defined.

Lemma generate_runs_one_mode_witness :
  let ps := examplePrimeSieve 49536 in
  flag_set (flags_ ps) (@CALLBACK_PRIMES exampleFlags) = true ∧
  flag_set (flags_ ps) (@CALLBACK_PRIMES_OOP exampleFlags) = true ∧
  flag_set (flags_ ps) (@PRINT_PRIMES exampleFlags) = true ∧
  @selectedMode exampleFlags ps = FunctionCallback.
Proof.
  intros ps. split_and!; [reflexivity..|].
  destruct (@generate_runs_one_mode exampleFlags ps (exampleFinder 49536)
              0 [x03] 1) as (_ & _ & _ & _ & Hcb & _).
  apply Hcb. reflexivity.
Defined.

(* ================================================================== *)
(** * Where the 32-bit arithmetic wraps around *)
(* ================================================================== *)


Section WrapAround.
Context `{PrimeSieveFlags}.




End WrapAround.



(* ================================================================== *)
(** * Further properties of the code *)
(* ================================================================== *)

(** ** count as a whole *)

Section CountTotals.
Context `{PrimeSieveFlags}.

(** One class of the loop over the tuplet classes. *)
Lemma countTuplets_step (flags : Z) (pnf : PrimeNumberFinder)
    (tables : list (option (list Z))) (sieve : list byte) (i : Z)
    (ps : PrimeSieve) :
  Z.of_nat (length sieve) < 2 ^ 32 →
  initByteCounts flags = Some tables →
  primeByteCounts_ pnf = Some tables →
  flags_ ps = flags → 0 <= i < COUNTS_SIZE →
  (Z.to_nat i < length (counts_ ps))%nat →
  (if flag_set flags (Z.shiftl COUNT_PRIMES i) then
     table ← countRow pnf i;
     s' ← tableLoop table sieve (Z.of_nat (length sieve)) (0, 0);
     addCount ps i s'.2
   else Some ps)
  = Some (set_counts ps
            (<[Z.to_nat i :=
                 addTotal flags pnf sieve (Z.to_nat i)
                   (default 0 (counts_ ps !! Z.to_nat i))]> (counts_ ps))).
Proof.
  intros Hn Hinit Hpnf Hflags Hi Hlen. unfold addTotal.
  rewrite Z2Nat.id by lia.
  destruct (lookup_lt_is_Some_2 _ _ Hlen) as [c Hc]. rewrite Hc. cbn [default].
  destruct (flag_set flags (Z.shiftl COUNT_PRIMES i)) eqn:Hflag.
  - destruct (initByteCounts_lookup _ _ i Hinit Hi Hflag) as (row & Hrow & Hbuilt).
    assert (countRow pnf i = Some row) as Hcr.
    { unfold countRow. rewrite Hpnf. cbn. by rewrite Hrow. }
    rewrite Hcr. cbn [mbind option_bind default from_option id].
    pose proof (tableLoop_spec row sieve 0 0) as Hspec.
    change (Z.of_nat 0, u32 0) with (0, 0) in Hspec.
    rewrite drop_0, Z.add_0_l in Hspec.
    rewrite Hspec; [| intros b; by eapply byteCountsRow_defined | lia | lia].
    cbn [mbind option_bind snd]. unfold addCount. rewrite Hc. done.
  - rewrite list_insert_id by done. by destruct ps.
Qed.


Lemma countPrimes_step (d : bool) (pnf : PrimeNumberFinder)
    (tables : list (option (list Z))) (sieve : list byte) (ps : PrimeSieve) :
  Z.of_nat (length sieve) + 8 <= 2 ^ 32 →
  initByteCounts (flags_ ps) = Some tables →
  primeByteCounts_ pnf = Some tables →
  (0 < length (counts_ ps))%nat →
  countPrimes d ps pnf sieve (Z.of_nat (length sieve))
  = Some (set_counts ps
            (<[0%nat :=
                 addTotal (flags_ ps) pnf sieve 0
                   (default 0 (counts_ ps !! 0%nat))]> (counts_ ps))).
Proof.
  intros Hn Hinit Hpnf Hlen. unfold addTotal.
  change (Z.shiftl COUNT_PRIMES (Z.of_nat 0)) with COUNT_PRIMES.
  destruct (lookup_lt_is_Some_2 _ _ Hlen) as [c Hc]. rewrite Hc. cbn [default].
  destruct (flag_set (flags_ ps) COUNT_PRIMES) eqn:Hflag.
  - destruct (initByteCounts_lookup _ _ 0 Hinit) as (row & Hrow & Hbuilt);
      [unfold COUNTS_SIZE; lia | done |].
    assert (countRow pnf 0 = Some row) as Hcr.
    { unfold countRow. rewrite Hpnf. cbn. by rewrite Hrow. }
    rewrite (countPrimes_spec d ps pnf row sieve) by done.
    change (Z.of_nat 0) with 0. rewrite Hcr.
    cbn [default from_option id]. unfold addCount.
    change (Z.to_nat 0) with 0%nat. rewrite Hc. done.
  - unfold countPrimes. rewrite Hflag, list_insert_id by done. by destruct ps.
Qed.

Lemma count_spec (d : bool) (ps : PrimeSieve)
    (pnf : PrimeNumberFinder) (tables : list (option (list Z)))
    (sieve : list byte) :
  Z.of_nat (length sieve) + 8 <= 2 ^ 32 →
  length (counts_ ps) = 7%nat →
  initByteCounts (flags_ ps) = Some tables →
  primeByteCounts_ pnf = Some tables →
  count d ps pnf sieve (Z.of_nat (length sieve))
  = Some (set_counts ps (countedTotals ps pnf sieve)).
Proof.
  intros Hn Hlen Hinit Hpnf. unfold count, countedTotals.
  rewrite (countPrimes_step d pnf tables) by (done || lia).
  cbn [mbind option_bind]. unfold countTuplets.
  change (seqZ 1 (COUNTS_SIZE - 1)) with [1; 2; 3; 4; 5; 6].
  destruct ps as [flags counts cb st sp sz pl]. cbn [flags_ counts_] in *.
  destruct counts as [|c0 [|c1 [|c2 [|c3 [|c4 [|c5 [|c6 [|c7 counts]]]]]]]];
    try discriminate Hlen.
  unfold set_counts. cbn [flags_ counts_ cbObj_ startNumber_ stopNumber_
                          sieveSize_ preSieveLimit_].
  cbn [forEach].
  do 6 (cbn [mbind option_bind set_counts flags_ counts_ cbObj_ startNumber_
               stopNumber_ sieveSize_ preSieveLimit_];
        erewrite (countTuplets_step flags pnf tables sieve _ _
                    ltac:(lia) Hinit Hpnf);
        [| first [reflexivity | unfold COUNTS_SIZE; lia
                 | cbn [counts_ set_counts]; rewrite !length_insert;
                   cbn [length]; lia]..]).
  reflexivity.
Qed.

(** X1. [count] adds to the counter of every counted class the 32-bit sum of
    the class's table entries over the bytes of the segment; the counters
    of the other classes, the flags and the callback receiver stay as they
    are. *)
Theorem count_adds_table_sums (d : bool) (ps : PrimeSieve)
    (pnf : PrimeNumberFinder) (tables : list (option (list Z)))
    (sieve : list byte) :
  Z.of_nat (length sieve) + 8 <= 2 ^ 32 →
  length (counts_ ps) = 7%nat →
  initByteCounts (flags_ ps) = Some tables →
  primeByteCounts_ pnf = Some tables →
  ∃ ps',
    count d ps pnf sieve (Z.of_nat (length sieve)) = Some ps' ∧
    flags_ ps' = flags_ ps ∧ cbObj_ ps' = cbObj_ ps ∧
    length (counts_ ps') = 7%nat ∧
    ∀ (i : nat) c, counts_ ps !! i = Some c →
      counts_ ps' !! i
      = Some (if flag_set (flags_ ps) (Z.shiftl COUNT_PRIMES (Z.of_nat i))
              then u64 (c + u32 (tableSum
                                   (default [] (countRow pnf (Z.of_nat i)))
                                   sieve))
              else c).
Proof.
  intros Hn Hlen Hinit Hpnf.
  exists (set_counts ps (countedTotals ps pnf sieve)).
  split; [by apply (count_spec d ps pnf tables)|].
  unfold countedTotals. cbn [set_counts flags_ cbObj_ counts_].
  split_and!; [done | done | by rewrite length_imap |].
  intros i c Hc. rewrite list_lookup_imap, Hc. done.
Qed.

Lemma addTotal_twice (flags : Z) (pnf : PrimeNumberFinder) (sieve : list byte)
    (i : nat) :
  addTotal flags pnf sieve i (addTotal flags pnf sieve i 0)
  = 2 * addTotal flags pnf sieve i 0.
Proof.
  unfold addTotal. destruct (flag_set _ _); [|done].
  pose proof (u32_range
    (tableSum (default [] (countRow pnf (Z.of_nat i))) sieve)) as Hs.
  unfold u64. rewrite Z.add_0_l.
  rewrite (Z.mod_small (u32 _)) by lia. rewrite Z.mod_small; lia.
Qed.

(** X2. Running [count] twice on the same segment, from cleared counters,
    leaves exactly twice the totals of one run. *)
Theorem count_twice_doubles (d : bool) (ps : PrimeSieve)
    (pnf : PrimeNumberFinder) (tables : list (option (list Z)))
    (sieve : list byte) :
  Z.of_nat (length sieve) + 8 <= 2 ^ 32 →
  counts_ ps = replicate 7 0 →
  initByteCounts (flags_ ps) = Some tables →
  primeByteCounts_ pnf = Some tables →
  ∃ ps1 ps2,
    count d ps pnf sieve (Z.of_nat (length sieve)) = Some ps1 ∧
    count d ps1 pnf sieve (Z.of_nat (length sieve)) = Some ps2 ∧
    counts_ ps2 = (λ c, 2 * c) <$> counts_ ps1.
Proof.
  intros Hn Hcounts Hinit Hpnf.
  exists (set_counts ps (countedTotals ps pnf sieve)),
    (set_counts ps (countedTotals (set_counts ps (countedTotals ps pnf sieve))
                      pnf sieve)).
  split_and!.
  - apply (count_spec d ps pnf tables); [done | by rewrite Hcounts | done | done].
  - rewrite (count_spec d _ pnf tables); [by destruct ps | done | | done | done].
    unfold countedTotals. cbn [set_counts counts_].
    by rewrite length_imap, Hcounts.
  - unfold countedTotals. cbn [set_counts counts_ flags_]. rewrite Hcounts.
    apply list_eq. intros i.
    rewrite list_lookup_fmap, !list_lookup_imap.
    destruct (replicate 7 0 !! i) as [c|] eqn:Hc; [|done].
    apply lookup_replicate in Hc as [-> _]. cbn [fmap option_fmap option_map].
    f_equal. apply addTotal_twice.
Qed.

End CountTotals.

(** Every entry of a count table is the number of patterns of its class
    that the byte contains: between 0 and 8. *)
Lemma byteCountsRow_entry_range (i : Z) (row : list Z) (b : byte) (c : Z) :
  0 <= i < COUNTS_SIZE → byteCountsRow i = Some row →
  row !! byteIndex b = Some c → 0 <= c <= 8.
Proof.
  intros Hi Hrow Hc. unfold byteCountsRow in Hrow.
  destruct (bitmasks !! Z.to_nat i) as [bm|] eqn:Hbm; [|done].
  cbn [mbind option_bind] in Hrow.
  destruct (mapM_lookup _ _ _ (byteIndex b) (byteZ b) Hrow) as (c' & Hc' & Hscan).
  { rewrite byteIndex_byteZ. apply lookup_seqZ_0.
    pose proof (byteZ_range b). rewrite BYTE_SIZE_256. lia. }
  assert (c' = c) as -> by congruence.
  destruct (bitmasks_rows _ _ Hbm) as ([rest Hsplit] & Hsorted & Hrange & Hlen).
  rewrite Hsplit in Hscan.
  pose proof (byteZ_range b).
  assert (Forall (λ q, q < END) (patterns bm)) as Hend
    by (eapply Forall_impl; [exact Hrange|]; cbn; lia).
  pose proof END_256 as HEND.
  rewrite countBitmasks_sorted in Hscan; [| done | done | lia | lia | lia].
  injection Hscan as <-.
  pose proof (fullScanCount_bounds (patterns bm) (byteZ b)). lia.
Qed.

Lemma tableSum_range (table : list Z) (bs : list byte) :
  (∀ (b : byte) c, table !! byteIndex b = Some c → 0 <= c <= 8) →
  0 <= tableSum table bs <= 8 * Z.of_nat (length bs).
Proof.
  intros Htable. unfold tableSum.
  induction bs as [|b bs IH]; cbn [foldr length]; [lia|].
  destruct (table !! byteIndex b) as [c|] eqn:Hc; cbn [default from_option id].
  - pose proof (Htable b c Hc). lia.
  - lia.
Qed.

Section CountSegments.
Context `{PrimeSieveFlags}.

Lemma countRow_range (flags : Z) (pnf : PrimeNumberFinder)
    (tables : list (option (list Z))) (i : nat) (bs : list byte) :
  initByteCounts flags = Some tables →
  primeByteCounts_ pnf = Some tables →
  (i < 7)%nat →
  0 <= tableSum (default [] (countRow pnf (Z.of_nat i))) bs
    <= 8 * Z.of_nat (length bs).
Proof.
  intros Hinit Hpnf Hi. apply tableSum_range. intros b c.
  unfold countRow. rewrite Hpnf. cbn [mbind option_bind]. rewrite Nat2Z.id.
  unfold initByteCounts in Hinit.
  destruct (tables !! i) as [[row|]|] eqn:Hrow;
    cbn [mbind option_bind default from_option id]; [|done..].
  apply mapM_Some_1 in Hinit.
  destruct (Forall2_lookup_r _ _ _ _ _ Hinit Hrow) as (j & Hj & Hbuilt).
  apply lookup_seqZ in Hj as [-> Hj].
  destruct (flag_set flags _); [|done].
  destruct (byteCountsRow (0 + Z.of_nat i)) as [row'|] eqn:Hrow'; [|done].
  cbn in Hbuilt. injection Hbuilt as ->.
  apply (byteCountsRow_entry_range (0 + Z.of_nat i)); [|done].
  unfold COUNTS_SIZE. lia.
Qed.

Lemma set_counts_twice ps a b : set_counts (set_counts ps a) b = set_counts ps b.
Proof. by destruct ps. Qed.

(** X3. Counting a segment in two parts, one call after the other, gives the
    counters of one call on the whole segment, as long as 8 times the
    length fits in 32 bits. *)
Theorem count_additive_over_segments (d : bool) (ps : PrimeSieve)
    (pnf : PrimeNumberFinder) (tables : list (option (list Z)))
    (sieve1 sieve2 : list byte) :
  8 * Z.of_nat (length (sieve1 ++ sieve2)) + 8 <= 2 ^ 32 →
  length (counts_ ps) = 7%nat →
  initByteCounts (flags_ ps) = Some tables →
  primeByteCounts_ pnf = Some tables →
  count d ps pnf sieve1 (Z.of_nat (length sieve1))
    ≫= (λ ps1, count d ps1 pnf sieve2 (Z.of_nat (length sieve2)))
  = count d ps pnf (sieve1 ++ sieve2) (Z.of_nat (length (sieve1 ++ sieve2))).
Proof.
  intros Hn Hlen Hinit Hpnf. rewrite length_app in Hn.
  rewrite (count_spec d ps pnf tables sieve1); [|lia|done..].
  cbn [mbind option_bind].
  rewrite (count_spec d _ pnf tables sieve2); [|lia| |done|done].
  2:{ unfold countedTotals. cbn [set_counts counts_]. by rewrite length_imap. }
  rewrite (count_spec d ps pnf tables (sieve1 ++ sieve2));
    [|rewrite length_app; lia|done..].
  rewrite set_counts_twice. do 2 f_equal.
  unfold countedTotals. cbn [set_counts counts_ flags_].
  apply list_eq. intros i. rewrite !list_lookup_imap.
  destruct (counts_ ps !! i) as [c|] eqn:Hc; [|done].
  cbn [fmap option_fmap option_map]. f_equal.
  apply lookup_lt_Some in Hc. rewrite Hlen in Hc.
  unfold addTotal. destruct (flag_set _ _); [|done].
  rewrite tableSum_app.
  pose proof (countRow_range (flags_ ps) pnf tables i sieve1 Hinit Hpnf Hc).
  pose proof (countRow_range (flags_ ps) pnf tables i sieve2 Hinit Hpnf Hc).
  rewrite !u32_small by lia. unfold u64.
  rewrite Zplus_mod_idemp_l. f_equal. lia.
Qed.

End CountSegments.

(** ** The chunked loop on a segment that is too long *)


(** ** The two kinds of tables *)

Lemma byteCountsRow_entry (i : Z) (bm row : list Z) (b : byte) :
  bitmasks !! Z.to_nat i = Some bm → byteCountsRow i = Some row →
  row !! byteIndex b = Some (fullScanCount (patterns bm) (byteZ b)).
Proof.
  intros Hbm Hrow. unfold byteCountsRow in Hrow. rewrite Hbm in Hrow.
  cbn [mbind option_bind] in Hrow.
  destruct (mapM_lookup _ _ _ (byteIndex b) (byteZ b) Hrow) as (c & Hc & Hscan).
  { rewrite byteIndex_byteZ. apply lookup_seqZ_0.
    pose proof (byteZ_range b). rewrite BYTE_SIZE_256. lia. }
  destruct (bitmasks_rows _ _ Hbm) as ([rest Hsplit] & Hsorted & Hrange & Hlen).
  rewrite Hsplit in Hscan. pose proof (byteZ_range b).
  assert (Forall (λ q, q < END) (patterns bm)) as Hend
    by (eapply Forall_impl; [exact Hrange|]; cbn; lia).
  pose proof END_256 as HEND.
  rewrite countBitmasks_sorted in Hscan; [| done | done | lia | lia | lia].
  rewrite Z.add_0_l in Hscan. congruence.
Qed.

Section TablesAgree.
Context `{PrimeSieveFlags}.
Variable bitValues_ : list Z.
Variable p : Z.
Hypothesis layout : FlagsLayout p.
Hypothesis bitValues_size : length bitValues_ = 8%nat.

Lemma rowValues_not_END (g : nat) bm b :
  Forall (λ v, v ≠ END) bitValues_ → bitmasks !! g = Some bm →
  Forall (λ v, v ≠ END) (rowValues bitValues_ bm b).
Proof.
  intros Hvalues Hbm. destruct (bitmasks_rows_ntz g bm Hbm) as (Hntz & _).
  unfold rowValues. apply Forall_fmap, Forall_forall.
  intros q Hq%list_elem_of_filter. destruct Hq as [_ Hq].
  rewrite Forall_forall in Hntz. apply Hntz in Hq.
  unfold compose, bitValueOf.
  destruct (lookup_lt_is_Some_2 bitValues_ (ntz q)) as [v Hv]; [lia|].
  rewrite Hv. cbn. rewrite Forall_forall in Hvalues.
  apply Hvalues. by eapply list_elem_of_lookup_2.
Qed.

(** X5. The table of values and the count table of the same class agree: the
    row of a byte lists, before its sentinel, as many numbers as the count
    table counts for this byte. *)
Theorem value_rows_have_counted_length (flags : Z) (g : nat)
    (tables : list (option (list Z))) (values : list (list (option Z))) :
  Forall (λ v, v ≠ END) bitValues_ →
  generateType flags = Some (Z.of_nat g) →
  flag_set flags (Z.shiftl COUNT_PRIMES (Z.of_nat g)) = true →
  initByteCounts flags = Some tables →
  initBitValues bitValues_ flags = Some values →
  ∃ counts,
    tables !! g = Some (Some counts) ∧
    ∀ b : byte,
      counts !! byteIndex b
      = Some (Z.of_nat
                (length (rowEntries (default [] (values !! byteIndex b))))).
Proof.
  intros Hvalues Hg Hflag Hcounts Hinit.
  destruct (initBitValues_spec bitValues_ p layout bitValues_size flags)
    as (g' & bm & values' & Hg' & Hbm & Hinit' & Hrows).
  assert (values' = values) as -> by congruence.
  assert (g' = g) as -> by (rewrite Hg in Hg'; injection Hg'; lia).
  assert (g < 7)%nat as Hrange by (by apply lookup_lt_Some in Hbm).
  destruct (initByteCounts_lookup flags tables (Z.of_nat g) Hcounts)
    as (counts & Hrow & Hbuilt); [unfold COUNTS_SIZE; lia | done |].
  rewrite Nat2Z.id in Hrow. exists counts. split; [done|]. intros b.
  rewrite (byteCountsRow_entry (Z.of_nat g) bm counts b);
    [| by rewrite Nat2Z.id | done].
  pose proof (byteZ_range b).
  rewrite byteIndex_byteZ, Hrows by lia. cbn [default from_option id].
  rewrite rowEntries_filled by (by apply (rowValues_not_END g)).
  unfold rowValues, fullScanCount, contained. by rewrite length_fmap.
Qed.

(** X6. The table of values serves one class only, the class of the lowest
    print flag that is set, however many print flags are set; its row of
    the byte [b] holds the numbers of the patterns of this class that [b]
    contains, then the sentinel. *)
Theorem value_table_serves_lowest_print_flag (flags : Z) (k : nat) :
  lowestPrintFlag p flags k →
  ∃ bm table,
    generateType flags = Some (Z.of_nat k) ∧
    bitmasks !! k = Some bm ∧
    initBitValues bitValues_ flags = Some table ∧
    length table = 256%nat ∧
    ∀ b, 0 <= b <= 255 →
      table !! Z.to_nat b = Some (filled (rowValues bitValues_ bm b ++ [END])).
Proof.
  intros Hk.
  destruct (initBitValues_spec bitValues_ p layout bitValues_size flags)
    as (g & bm & table & Hg & Hbm & Hinit & Hrows).
  pose proof (generateType_ladder p layout flags k Hk) as Hladder.
  assert (g = k) as -> by (rewrite Hladder in Hg; injection Hg; lia).
  exists bm, table. split_and!; [done | done | done | | done].
  unfold initBitValues in Hinit. rewrite Hladder in Hinit.
  cbn [mbind option_bind] in Hinit. rewrite Nat2Z.id, Hbm in Hinit.
  cbn [mbind option_bind] in Hinit.
  apply length_mapM in Hinit. rewrite length_seqZ in Hinit.
  rewrite <- Hinit. reflexivity.
Qed.

Lemma primeRowIsSetBits_all (b : Z) :
  0 <= b <= 255 → primeRowIsSetBits b = true.
Proof.
  intros Hb. apply (forallb_seqZ primeRowIsSetBits 0 256); [|lia].
  vm_compute. reflexivity.
Qed.

(** X7. In the table of the prime class, the row of a byte lists the numbers
    of exactly the bits that are set in the byte, lowest bit first. *)
Theorem prime_value_rows_list_set_bits (flags : Z) :
  flag_set flags PRINT_FLAGS = false ∨ flag_set flags PRINT_PRIMES = true →
  ∃ table,
    initBitValues bitValues_ flags = Some table ∧
    ∀ b, 0 <= b <= 255 →
      table !! Z.to_nat b
      = Some (filled ((bitValueAt bitValues_ <$> setBits b) ++ [END])).
Proof.
  intros Hclass.
  destruct (initBitValues_spec bitValues_ p layout bitValues_size flags)
    as (g & bm & table & Hg & Hbm & Hinit & Hrows).
  rewrite (generateType_prime flags Hclass) in Hg.
  assert (g = 0%nat) as -> by (injection Hg; lia).
  exists table. split; [done|]. intros b Hb. rewrite Hrows by done.
  do 3 f_equal. unfold rowValues.
  pose proof (primeRowIsSetBits_all b Hb) as Hbits.
  unfold primeRowIsSetBits in Hbits. apply bool_decide_eq_true in Hbits.
  rewrite Hbm in Hbits. cbn [default from_option id] in Hbits.
  rewrite <- Hbits, <- list_fmap_compose. done.
Qed.

End TablesAgree.

Lemma chainIsPattern_wheel30 (k : nat) :
  (k <= 6)%nat → chainIsPattern wheel30 k = true.
Proof.
  intros Hk.
  assert (forallb (chainIsPattern wheel30) (seq 0 7) = true) as Hall
    by (vm_compute; reflexivity).
  rewrite forallb_forall in Hall. apply Hall, in_seq. lia.
Qed.

(** X8. The chain table fits the patterns: for the wheel 7, 11, ..., 31 and
    every pattern of the class [k], the [k] lookups in [nextBitValue_]
    that start at the number of the lowest bit of the pattern run through
    the numbers of the [k + 1] bits of the pattern, in ascending order. *)
Theorem tuplet_chain_runs_through_pattern_bits (k : nat) (bm : list Z) (q : Z) :
  bitmasks !! k = Some bm → q ∈ patterns bm →
  length (setBits q) = S k ∧
  tupletMembers k (bitValueOf wheel30 q)
  = Some (bitValueAt wheel30 <$> setBits q).
Proof.
  intros Hbm Hq.
  assert (k <= 6)%nat as Hk by (apply lookup_lt_Some in Hbm; cbn in Hbm; lia).
  pose proof (chainIsPattern_wheel30 k Hk) as Hall.
  unfold chainIsPattern in Hall. rewrite Hbm in Hall.
  cbn [default from_option id] in Hall.
  rewrite forallb_forall in Hall. apply list_elem_of_In, Hall in Hq.
  apply andb_true_iff in Hq as [Hchain Hlen].
  apply bool_decide_eq_true in Hchain, Hlen. done.
Qed.

(** ** generate as a whole *)

Lemma concat_singletons {A B : Type} (g : A → B) (l : list A) :
  concat ((λ x, [g x]) <$> l) = g <$> l.
Proof. induction l as [|x l IH]; cbn; [done | by rewrite IH]. Qed.

Lemma length_generated (table : list (list (option Z)))
    (out : Z → Z → list Effect) (sieve : list byte) :
  (∀ runningValue entry, length (out runningValue entry) = 1%nat) →
  ∀ runningValue,
    length (generated table out runningValue sieve)
    = length (sieve ≫= λ b, rowEntries (default [] (table !! byteIndex b))).
Proof.
  intros Hout. induction sieve as [|b sieve IH]; intros rv; [done|].
  cbn [generated mbind list_bind]. rewrite !length_app, IH. f_equal.
  induction (rowEntries _) as [|e es IHes]; [done|].
  cbn [fmap list_fmap concat]. rewrite length_app, Hout, IHes. done.
Qed.

Section GenerateWheel30.
Context `{PrimeSieveFlags}.
Variable p : Z.
Hypothesis layout : FlagsLayout p.

Lemma wheel30_table_rows (flags : Z) (table : list (list (option Z))) :
  initBitValues wheel30 flags = Some table →
  ∃ (g : nat) bm,
    generateType flags = Some (Z.of_nat g) ∧ bitmasks !! g = Some bm ∧
    ∀ b : byte,
      rowEntries (default [] (table !! byteIndex b))
      = rowValues wheel30 bm (byteZ b).
Proof.
  intros Hinit.
  destruct (initBitValues_spec wheel30 p layout eq_refl flags)
    as (g & bm & table' & Hg & Hbm & Hinit' & Hrows).
  assert (table' = table) as -> by congruence.
  exists g, bm. split_and!; [done | done |]. intros b.
  pose proof (byteZ_range b).
  rewrite byteIndex_byteZ, Hrows by lia. cbn [default from_option id].
  apply rowEntries_filled.
  pose proof (wheel30_rowValues_range g bm (byteZ b) Hbm) as Hrange.
  eapply Forall_impl; [exact Hrange|]. cbn. rewrite END_256. lia.
Qed.

(** With the wheel 7, 11, ..., 31 and the tables of the constructor,
    [generate] succeeds in each of its four modes, with one effect per
    entry of the rows it walks. *)
Lemma generate_wheel30 (ps : PrimeSieve) (pnf : PrimeNumberFinder)
    (table : list (list (option Z))) (segmentLow : Z) (sieve : list byte) :
  Z.of_nat (length sieve) < 2 ^ 32 →
  flag_set (flags_ ps) GENERATE_FLAGS = true →
  initBitValues wheel30 (flags_ ps) = Some table →
  primeBitValues_ pnf = Some table →
  ∃ out,
    (∀ runningValue entry, length (out runningValue entry) = 1%nat) ∧
    generate ps pnf segmentLow sieve (Z.of_nat (length sieve))
    = Some (generated table out segmentLow sieve).
Proof.
  intros Hn Hgen Hinit Hpnf.
  destruct (plainMode ps) eqn:Hmode.
  { eexists. split; [|by apply (generate_plain wheel30 ps pnf table)]. done. }
  assert (flag_set (flags_ ps) PRINT_FLAGS = true) as Hprint.
  { unfold plainMode in Hmode.
    apply orb_false_iff in Hmode as [Hmode _].
    apply orb_false_iff in Hmode as [Hcb Hoop].
    by apply (print_flag_of_generate_flags p). }
  destruct (lowestPrintFlag_exists p layout _ Hprint) as [k Hk].
  eexists. split;
    [|apply (generate_tuplets wheel30 p layout ps pnf table k); try done].
  { done. }
  intros b v _ Hv.
  destruct (wheel30_table_rows _ _ Hinit) as (g & bm & Hg & Hbm & Hrows).
  rewrite (generateType_ladder p layout _ k Hk) in Hg.
  assert (g = k) as -> by (injection Hg; lia).
  rewrite Hrows in Hv. pose proof (byteZ_range b) as Hb.
  pose proof (chainClosed_wheel30 k (byteZ b) ltac:(apply Hk) ltac:(lia))
    as Hclosed.
  unfold chainClosed in Hclosed. rewrite Hbm in Hclosed.
  cbn [default from_option id] in Hclosed.
  rewrite forallb_forall in Hclosed.
  apply list_elem_of_In, Hclosed in Hv.
  apply andb_true_iff in Hv as [_ Hv]. by apply bool_decide_eq_true in Hv.
Qed.

(** X9. [generate] and [count] agree on every segment: in each of its modes
    [generate] hands over (calls back or prints) exactly as many values
    or tuplets as the count table of the same class adds up to. *)
Theorem generate_hands_over_what_count_counts (ps : PrimeSieve)
    (pnf : PrimeNumberFinder) (tables : list (option (list Z)))
    (values : list (list (option Z))) (g : nat) (segmentLow : Z)
    (sieve : list byte) :
  Z.of_nat (length sieve) < 2 ^ 32 →
  flag_set (flags_ ps) GENERATE_FLAGS = true →
  generateType (flags_ ps) = Some (Z.of_nat g) →
  flag_set (flags_ ps) (Z.shiftl COUNT_PRIMES (Z.of_nat g)) = true →
  initByteCounts (flags_ ps) = Some tables →
  primeByteCounts_ pnf = Some tables →
  initBitValues wheel30 (flags_ ps) = Some values →
  primeBitValues_ pnf = Some values →
  ∃ es,
    generate ps pnf segmentLow sieve (Z.of_nat (length sieve)) = Some es ∧
    Z.of_nat (length es)
    = tableSum (default [] (countRow pnf (Z.of_nat g))) sieve.
Proof.
  intros Hn Hgen Hg Hflag Hcounts Hpnfc Hinit Hpnfv.
  destruct (generate_wheel30 ps pnf values segmentLow sieve)
    as (out & Hout & ->); [done..|].
  eexists. split; [done|]. rewrite (length_generated _ _ _ Hout).
  destruct (wheel30_table_rows _ _ Hinit) as (g' & bm & Hg' & Hbm & Hrows).
  assert (g' = g) as -> by (rewrite Hg in Hg'; injection Hg'; lia).
  assert (g < 7)%nat as Hrange by (by apply lookup_lt_Some in Hbm).
  destruct (initByteCounts_lookup _ tables (Z.of_nat g) Hcounts)
    as (counts & Hrow & Hbuilt); [unfold COUNTS_SIZE; lia | done |].
  assert (countRow pnf (Z.of_nat g) = Some counts) as ->.
  { unfold countRow. rewrite Hpnfc. cbn. by rewrite Hrow. }
  cbn [default from_option id]. unfold tableSum.
  induction sieve as [|b sieve IH]; [done|].
  cbn [mbind list_bind foldr]. rewrite length_app, Nat2Z.inj_add, IH.
  - rewrite (byteCountsRow_entry (Z.of_nat g) bm counts b);
      [| by rewrite Nat2Z.id | done].
    cbn [default from_option id]. rewrite Hrows.
    unfold rowValues, fullScanCount, contained. by rewrite length_fmap.
  - cbn [length] in Hn. lia.
Qed.

End GenerateWheel30.

Lemma generated_app (table : list (list (option Z)))
    (out : Z → Z → list Effect) (sieve1 sieve2 : list byte) :
  ∀ runningValue,
    0 <= runningValue →
    runningValue + NUMBERS_PER_BYTE * Z.of_nat (length sieve1) < 2 ^ 64 →
    generated table out runningValue (sieve1 ++ sieve2)
    = generated table out runningValue sieve1
      ++ generated table out
           (runningValue + NUMBERS_PER_BYTE * Z.of_nat (length sieve1)) sieve2.
Proof.
  unfold NUMBERS_PER_BYTE.
  induction sieve1 as [|b sieve1 IH]; intros rv Hrv Hmax.
  - cbn [app generated length]. f_equal. lia.
  - cbn [app generated length] in *. rewrite <- app_assoc. f_equal.
    unfold NUMBERS_PER_BYTE, u64. rewrite Z.mod_small by lia.
    rewrite IH by lia. do 2 f_equal. lia.
Qed.

Section GenerateSegments.
Context `{PrimeSieveFlags}.
Variable bitValues_ : list Z.

(** X10. Generating a segment in two parts, the second one with the low value
    moved on by 30 per byte of the first, hands over what one call on the
    whole segment hands over, in the same order. *)
Theorem generate_over_concatenation (ps : PrimeSieve)
    (pnf : PrimeNumberFinder) (table : list (list (option Z)))
    (segmentLow : Z) (sieve1 sieve2 : list byte) :
  Z.of_nat (length (sieve1 ++ sieve2)) < 2 ^ 32 →
  0 <= segmentLow →
  segmentLow + 30 * Z.of_nat (length sieve1) < 2 ^ 64 →
  plainMode ps = true →
  initBitValues bitValues_ (flags_ ps) = Some table →
  primeBitValues_ pnf = Some table →
  ∃ es1 es2,
    generate ps pnf segmentLow sieve1 (Z.of_nat (length sieve1)) = Some es1 ∧
    generate ps pnf (segmentLow + 30 * Z.of_nat (length sieve1)) sieve2
      (Z.of_nat (length sieve2)) = Some es2 ∧
    generate ps pnf segmentLow (sieve1 ++ sieve2)
      (Z.of_nat (length (sieve1 ++ sieve2))) = Some (es1 ++ es2).
Proof.
  intros Hn Hlow Hmax Hmode Hinit Hpnf.
  pose proof Hn as Hn'. rewrite length_app in Hn'.
  rewrite !(generate_plain bitValues_ ps pnf table) by (done || lia).
  eexists _, _. split_and!; [done | done |].
  f_equal. by apply generated_app.
Qed.

End GenerateSegments.

Section GenerateOrder.
Context `{PrimeSieveFlags}.
Variable p : Z.
Hypothesis layout : FlagsLayout p.

Lemma wheel30_sorted : StronglySorted Z.lt wheel30.
Proof. unfold wheel30. repeat constructor. Qed.

Lemma generated_ascending (ps : PrimeSieve) (table : list (list (option Z)))
    (bm : list Z) (g : nat) (sieve : list byte) :
  bitmasks !! g = Some bm →
  (∀ b : byte,
      rowEntries (default [] (table !! byteIndex b))
      = rowValues wheel30 bm (byteZ b)) →
  ∀ runningValue,
    0 <= runningValue →
    runningValue + NUMBERS_PER_BYTE * Z.of_nat (length sieve) + 31 < 2 ^ 64 →
    ∃ vs,
      generated table
        (λ runningValue entry, [plainEffect ps (u64 (runningValue + entry))])
        runningValue sieve = plainEffect ps <$> vs ∧
      StronglySorted Z.lt vs ∧
      Forall (λ v, runningValue + 7 <= v) vs.
Proof.
  intros Hbm Hrows. unfold NUMBERS_PER_BYTE.
  induction sieve as [|b sieve IH]; intros rv Hrv Hmax.
  { exists []. split_and!; [done | constructor | constructor]. }
  cbn [generated length] in *.
  destruct (IH (u64 (rv + NUMBERS_PER_BYTE))) as (vs & -> & Hsorted & Hlow).
  { unfold NUMBERS_PER_BYTE, u64. rewrite Z.mod_small; lia. }
  { unfold NUMBERS_PER_BYTE, u64. rewrite Z.mod_small; lia. }
  unfold NUMBERS_PER_BYTE, u64 in Hlow. rewrite Z.mod_small in Hlow by lia.
  rewrite Hrows.
  pose proof (wheel30_rowValues_range g bm (byteZ b) Hbm) as Hrange.
  pose proof (rowValues_sorted wheel30 eq_refl g bm (byteZ b)
                wheel30_sorted Hbm) as Hrow.
  exists (((λ entry, rv + entry) <$> rowValues wheel30 bm (byteZ b)) ++ vs).
  split_and!.
  - rewrite fmap_app, <- list_fmap_compose. f_equal.
    rewrite (concat_singletons (λ e, plainEffect ps (u64 (rv + e)))).
    apply Forall_fmap_ext_1. eapply Forall_impl; [exact Hrange|].
    cbn. intros e He. unfold u64. rewrite Z.mod_small; [done | lia].
  - apply StronglySorted_app_2; [| |done].
    + intros x y Hx Hy. apply list_elem_of_fmap in Hx as (e & -> & He).
      rewrite Forall_forall in Hrange, Hlow.
      apply Hrange in He. apply Hlow in Hy. lia.
    + eapply StronglySorted_fmap; [|exact Hrow]. cbn. intros x y. lia.
  - apply Forall_app. split.
    + apply Forall_fmap. eapply Forall_impl; [exact Hrange|]. cbn. lia.
    + eapply Forall_impl; [exact Hlow|]. cbn. lia.
Qed.

(** X11. With the wheel 7, 11, ..., 31, the values that [generate] hands over
    in a plain-prime mode are in strictly ascending order over the whole
    segment, and the first is at least the low value plus 7. *)
Theorem generate_hands_over_ascending_values (ps : PrimeSieve)
    (pnf : PrimeNumberFinder) (table : list (list (option Z)))
    (segmentLow : Z) (sieve : list byte) :
  Z.of_nat (length sieve) < 2 ^ 32 →
  0 <= segmentLow →
  segmentLow + 30 * Z.of_nat (length sieve) + 31 < 2 ^ 64 →
  plainMode ps = true →
  initBitValues wheel30 (flags_ ps) = Some table →
  primeBitValues_ pnf = Some table →
  ∃ vs,
    generate ps pnf segmentLow sieve (Z.of_nat (length sieve))
    = Some (plainEffect ps <$> vs) ∧
    StronglySorted Z.lt vs ∧
    Forall (λ v, segmentLow + 7 <= v) vs.
Proof.
  intros Hn Hlow Hmax Hmode Hinit Hpnf.
  destruct (wheel30_table_rows p layout _ _ Hinit) as (g & bm & _ & Hbm & Hrows).
  destruct (generated_ascending ps table bm g sieve Hbm Hrows segmentLow)
    as (vs & Hvs & Hsorted & Hfirst); [done | by unfold NUMBERS_PER_BYTE |].
  exists vs. split_and!; [|done|done].
  rewrite (generate_plain wheel30 ps pnf table) by done. by rewrite Hvs.
Qed.

End GenerateOrder.

(** ** The empty segment and the constructor *)

Section Edges.
Context `{PrimeSieveFlags}.
Variable bitValues_ : list Z.

Lemma generate_nil (ps : PrimeSieve) (pnf : PrimeNumberFinder) (segmentLow : Z) :
  generate ps pnf segmentLow [] 0 = Some [].
Proof. rewrite generate_branch. reflexivity. Qed.

Lemma countedTotals_nil (ps : PrimeSieve) (pnf : PrimeNumberFinder) :
  Forall (λ c, 0 <= c < 2 ^ 64) (counts_ ps) →
  countedTotals ps pnf [] = counts_ ps.
Proof.
  intros Hrange. unfold countedTotals. apply list_eq. intros i.
  rewrite list_lookup_imap.
  destruct (counts_ ps !! i) as [c|] eqn:Hc; [|done]. cbn. f_equal.
  rewrite Forall_lookup in Hrange. apply Hrange in Hc.
  unfold addTotal. destruct (flag_set _ _); [|done].
  change (u32 (tableSum _ [])) with 0. unfold u64.
  rewrite Z.add_0_r. by apply Z.mod_small.
Qed.

(** X12. On an empty segment [analyseSieve] leaves the counters and all other
    fields as they are, hands over nothing, and reports 0 processed
    numbers. *)
Theorem analyseSieve_on_empty_segment (d : bool) (ps : PrimeSieve)
    (pnf : PrimeNumberFinder) (segmentLow : Z) :
  length (counts_ ps) = 7%nat →
  Forall (λ c, 0 <= c < 2 ^ 64) (counts_ ps) →
  initLookupTables bitValues_ (flags_ ps)
  = Some (primeByteCounts_ pnf, primeBitValues_ pnf) →
  analyseSieve d ps pnf segmentLow [] 0
  = Some (ps,
          (if flag_set (flags_ ps) COUNT_FLAGS then [call_count] else [])
          ++ (if flag_set (flags_ ps) GENERATE_FLAGS then [call_generate] else [])
          ++ [doStatus 0]).
Proof.
  intros Hlen Hrange Hinit. unfold analyseSieve.
  assert ((if flag_set (flags_ ps) COUNT_FLAGS
           then ps' ← count d ps pnf [] 0; Some (ps', [call_count])
           else Some (ps, []))
          = Some (ps, if flag_set (flags_ ps) COUNT_FLAGS
                      then [call_count] else [])) as ->.
  { unfold initLookupTables in Hinit.
    destruct (flag_set (flags_ ps) COUNT_FLAGS); [|done].
    destruct (initByteCounts (flags_ ps)) as [tables|] eqn:Htables; [|done].
    cbn [fmap option_fmap option_map mbind option_bind] in Hinit.
    destruct (if flag_set (flags_ ps) GENERATE_FLAGS then _ else _); [|done].
    cbn [mbind option_bind] in Hinit. injection Hinit as Hc _.
    pose proof (count_spec d ps pnf tables []) as Hcount.
    change (Z.of_nat (length [])) with 0 in Hcount.
    rewrite Hcount; [|done..]. rewrite countedTotals_nil by done.
    by destruct ps. }
  cbn [mbind option_bind fst snd].
  destruct (flag_set (flags_ ps) GENERATE_FLAGS);
    [rewrite generate_nil|]; reflexivity.
Qed.

Variable p : Z.
Hypothesis layout : FlagsLayout p.
Hypothesis bitValues_size : length bitValues_ = 8%nat.

(** X13. The constructor always succeeds: it sets the POPCNT flag when the
    processor has the instruction and changes nothing else of the
    [PrimeSieve]; it builds the count tables exactly when a count flag is
    set and the table of values exactly when a generate flag is set; the
    sieve size it hands on is the size in kilobytes times 1024, in 32
    bits. *)
Theorem constructor_builds_what_the_flags_ask (isPOPCNTSupported : bool)
    (ps : PrimeSieve) :
  ∃ pnf,
    let ps' := if isPOPCNTSupported
               then set_flags ps (Z.lor (flags_ ps) SSE4_POPCNT) else ps in
    newPrimeNumberFinder bitValues_ isPOPCNTSupported ps = Some (ps', pnf) ∧
    counts_ ps' = counts_ ps ∧ cbObj_ ps' = cbObj_ ps ∧
    (isPOPCNTSupported = true →
     Z.land (flags_ ps') SSE4_POPCNT = SSE4_POPCNT) ∧
    (isPOPCNTSupported = false → flags_ ps' = flags_ ps) ∧
    soe_sieveSize (soe pnf) = u32 (getSieveSize ps * 1024) ∧
    (is_Some (primeByteCounts_ pnf)
     ↔ flag_set (flags_ ps') COUNT_FLAGS = true) ∧
    (is_Some (primeBitValues_ pnf)
     ↔ flag_set (flags_ ps') GENERATE_FLAGS = true) ∧
    (∀ tables, primeByteCounts_ pnf = Some tables →
               initByteCounts (flags_ ps') = Some tables) ∧
    (∀ table, primeBitValues_ pnf = Some table →
              initBitValues bitValues_ (flags_ ps') = Some table).
Proof.
  remember (if isPOPCNTSupported
            then set_flags ps (Z.lor (flags_ ps) SSE4_POPCNT) else ps) as ps'.
  destruct (initByteCounts_total (flags_ ps')) as [tables Htables].
  destruct (initBitValues_spec bitValues_ p layout bitValues_size (flags_ ps'))
    as (g & bm & table & _ & _ & Htable & _).
  exists {| soe := baseArguments ps;
            primeByteCounts_ :=
              if flag_set (flags_ ps') COUNT_FLAGS then Some tables else None;
            primeBitValues_ :=
              if flag_set (flags_ ps') GENERATE_FLAGS then Some table else None |}.
  cbn [soe primeByteCounts_ primeBitValues_ baseArguments soe_sieveSize].
  split; [|split; [|split; [|split; [|split; [|split; [|split; [|split;
    [|split]]]]]]]].
  - unfold newPrimeNumberFinder, initLookupTables. rewrite <- Heqps'.
    rewrite Htables, Htable.
    by destruct (flag_set (flags_ ps') COUNT_FLAGS),
      (flag_set (flags_ ps') GENERATE_FLAGS).
  - subst ps'. by destruct isPOPCNTSupported.
  - subst ps'. by destruct isPOPCNTSupported.
  - intros ->. subst ps'. cbn [set_flags flags_].
    rewrite Z.land_lor_distr_l, Z.land_diag.
    apply Z.bits_inj'. intros i Hi.
    rewrite Z.lor_spec, Z.land_spec.
    by destruct (Z.testbit (flags_ ps) i), (Z.testbit SSE4_POPCNT i).
  - intros ->. by subst ps'.
  - done.
  - destruct (flag_set (flags_ ps') COUNT_FLAGS); split;
      first [done | by intros _; eexists | by intros [? ?]].
  - destruct (flag_set (flags_ ps') GENERATE_FLAGS); split;
      first [done | by intros _; eexists | by intros [? ?]].
  - intros t. destruct (flag_set (flags_ ps') COUNT_FLAGS); [|done].
    by intros [= <-].
  - intros t. destruct (flag_set (flags_ ps') GENERATE_FLAGS); [|done].
    by intros [= <-].
Qed.

End Edges.

(** ** What generate reconstructs *)

Lemma concat_singletons_of {A B : Type} (f : A → list B) (g : A → B)
    (l : list A) :
  (∀ x, x ∈ l → f x = [g x]) → concat (f <$> l) = g <$> l.
Proof.
  induction l as [|x l IH]; intros Hf; [done|]. cbn.
  rewrite Hf, IH; [done | | left]. intros y Hy. apply Hf. by right.
Qed.

Section Reconstruction.
Context `{PrimeSieveFlags}.
Variable p : Z.
Hypothesis layout : FlagsLayout p.

Lemma prime_rowValues (bitValues_ : list Z) (bm : list Z) (b : byte) :
  bitmasks !! 0%nat = Some bm →
  rowValues bitValues_ bm (byteZ b)
  = bitValueAt bitValues_ <$> setBits (byteZ b).
Proof.
  intros Hbm. pose proof (byteZ_range b).
  pose proof (primeRowIsSetBits_all wheel30 eq_refl (byteZ b) ltac:(lia)) as Hbits.
  unfold primeRowIsSetBits in Hbits. apply bool_decide_eq_true in Hbits.
  rewrite Hbm in Hbits. cbn [default from_option id] in Hbits.
  unfold rowValues. rewrite <- Hbits, <- list_fmap_compose. done.
Qed.

(** X14. In a plain-prime mode with the table of the prime class, [generate]
    hands over exactly the numbers that the set bits of the segment stand
    for: low value + 30 * (index of the byte) + the number of the bit,
    byte by byte and lowest bit first. *)
Theorem generate_reconstructs_the_set_bits (bitValues_ : list Z)
    (ps : PrimeSieve) (pnf : PrimeNumberFinder)
    (table : list (list (option Z))) (segmentLow : Z) (sieve : list byte) :
  length bitValues_ = 8%nat →
  Forall (λ v, 0 <= v < END) bitValues_ →
  Z.of_nat (length sieve) < 2 ^ 32 →
  0 <= segmentLow →
  segmentLow + 30 * Z.of_nat (length sieve) + END < 2 ^ 64 →
  plainMode ps = true →
  flag_set (flags_ ps) PRINT_FLAGS = false
  ∨ flag_set (flags_ ps) PRINT_PRIMES = true →
  initBitValues bitValues_ (flags_ ps) = Some table →
  primeBitValues_ pnf = Some table →
  generate ps pnf segmentLow sieve (Z.of_nat (length sieve))
  = Some (plainEffect ps <$> segmentNumbers bitValues_ segmentLow sieve).
Proof.
  intros Hsize Hvalues Hn Hlow Hmax Hmode Hclass Hinit Hpnf.
  rewrite (generate_plain bitValues_ ps pnf table) by done. f_equal.
  destruct (initBitValues_spec bitValues_ p layout Hsize (flags_ ps))
    as (g & bm & table' & Hg & Hbm & Hinit' & Hrows).
  assert (table' = table) as -> by congruence.
  rewrite (generateType_prime _ Hclass) in Hg.
  assert (g = 0%nat) as -> by (injection Hg; lia).
  assert (∀ b : byte,
            rowEntries (default [] (table !! byteIndex b))
            = bitValueAt bitValues_ <$> setBits (byteZ b)) as Hentries.
  { intros b. pose proof (byteZ_range b).
    rewrite byteIndex_byteZ, Hrows by lia. cbn [default from_option id].
    rewrite rowEntries_filled.
    - by apply prime_rowValues.
    - apply (rowValues_not_END bitValues_ Hsize 0%nat); [|done].
      eapply Forall_impl; [exact Hvalues|]. cbn. lia. }
  assert (∀ i, 0 <= bitValueAt bitValues_ i < END) as Hrange.
  { intros i. unfold bitValueAt.
    destruct (bitValues_ !! i) as [v|] eqn:Hv; cbn.
    - rewrite Forall_lookup in Hvalues. by eapply Hvalues.
    - rewrite END_256. lia. }
  clear Hn Hrows Hinit Hinit' Hpnf. rewrite END_256 in Hmax, Hrange.
  revert segmentLow Hlow Hmax.
  induction sieve as [|b sieve IH]; intros rv Hlow Hmax; [done|].
  cbn [generated segmentNumbers length] in *.
  rewrite fmap_app, Hentries, <- !list_fmap_compose. f_equal.
  - apply concat_singletons_of. intros i _. cbn. do 2 f_equal.
    pose proof (Hrange i). unfold u64. apply Z.mod_small. lia.
  - unfold u64, NUMBERS_PER_BYTE. rewrite Z.mod_small by lia.
    apply IH; lia.
Qed.

Lemma chain_of_pattern (k : nat) (bm : list Z) (q : Z) :
  bitmasks !! k = Some bm → q ∈ patterns bm →
  tupletMembers k (bitValueOf wheel30 q)
  = Some (bitValueAt wheel30 <$> setBits q).
Proof.
  intros Hbm Hq.
  assert (k <= 6)%nat as Hk by (apply lookup_lt_Some in Hbm; cbn in Hbm; lia).
  pose proof (chainIsPattern_wheel30 k Hk) as Hall.
  unfold chainIsPattern in Hall. rewrite Hbm in Hall.
  cbn [default from_option id] in Hall.
  rewrite forallb_forall in Hall. apply list_elem_of_In, Hall in Hq.
  apply andb_true_iff in Hq as [Hchain _].
  by apply bool_decide_eq_true in Hchain.
Qed.

(** X15. In the tuplet mode of the class [k], with the wheel 7, 11, ..., 31,
    [generate] prints exactly the tuplets of the segment: for each byte,
    in ascending order of the patterns, one line for each pattern of the
    class that the byte contains, listing the running value plus the
    number of each bit of the pattern. *)
Theorem generate_prints_the_contained_patterns (ps : PrimeSieve)
    (pnf : PrimeNumberFinder) (table : list (list (option Z))) (k : nat)
    (bm : list Z) (segmentLow : Z) (sieve : list byte) :
  Z.of_nat (length sieve) < 2 ^ 32 →
  plainMode ps = false →
  lowestPrintFlag p (flags_ ps) k →
  bitmasks !! k = Some bm →
  initBitValues wheel30 (flags_ ps) = Some table →
  primeBitValues_ pnf = Some table →
  generate ps pnf segmentLow sieve (Z.of_nat (length sieve))
  = Some (segmentTuplets wheel30 bm segmentLow sieve).
Proof.
  intros Hn Hmode Hk Hbm Hinit Hpnf.
  destruct (wheel30_table_rows p layout _ _ Hinit) as (g & bm' & Hg & Hbm' & Hrows).
  rewrite (generateType_ladder p layout _ k Hk) in Hg.
  assert (g = k) as -> by (injection Hg; lia).
  assert (bm' = bm) as -> by congruence.
  assert (∀ (b : byte) v,
            v ∈ rowEntries (default [] (table !! byteIndex b)) →
            ∃ q, q ∈ patterns bm ∧ v = bitValueOf wheel30 q) as Hentries.
  { intros b v. rewrite Hrows. unfold rowValues.
    intros (q & -> & Hq%list_elem_of_filter)%list_elem_of_fmap.
    exists q. split; [apply Hq | done]. }
  rewrite (generate_tuplets wheel30 p layout ps pnf table k); [|done..|].
  2:{ intros b v _ Hv. destruct (Hentries b v Hv) as (q & Hq & ->).
      rewrite (chain_of_pattern k bm q) by done. by eexists. }
  f_equal. clear Hn. generalize segmentLow.
  induction sieve as [|b sieve IH]; intros rv; [done|].
  cbn [generated segmentTuplets]. rewrite IH. f_equal.
  rewrite Hrows. unfold rowValues. rewrite <- list_fmap_compose.
  apply concat_singletons_of. intros q Hq.
  apply list_elem_of_filter in Hq as [_ Hq]. cbn.
  rewrite (chain_of_pattern k bm q) by done. done.
Qed.

End Reconstruction.

(* ================================================================== *)
(** * The further properties at concrete inputs *)
(* ================================================================== *)

Lemma count_adds_table_sums_witness :
  let ps := examplePrimeSieve 3 in
  ∃ ps',
    @count exampleFlags false ps (exampleFinder 3) [x03; x06; xff] 3 = Some ps' ∧
    flags_ ps' = 3 ∧
    counts_ ps' !! 0%nat = Some 12 ∧ counts_ ps' !! 2%nat = Some 0.
Proof.
  intros ps.
  destruct (@count_adds_table_sums exampleFlags false ps (exampleFinder 3)
              (default [] (@initByteCounts exampleFlags 3)) [x03; x06; xff])
    as (ps' & Hrun & Hflags & _ & _ & Hcounts).
  - vm_compute. discriminate.
  - reflexivity.
  - vm_compute. reflexivity.
  - vm_compute. reflexivity.
  - exists ps'. split; [exact Hrun|]. split; [exact Hflags|]. split.
    + rewrite (Hcounts 0%nat 0 eq_refl). vm_compute. reflexivity.
    + rewrite (Hcounts 2%nat 0 eq_refl). vm_compute. reflexivity.
Defined.

Lemma count_twice_doubles_witness :
  let ps := examplePrimeSieve 3 in
  ∃ ps1 ps2,
    @count exampleFlags false ps (exampleFinder 3) [x03; x06; xff] 3 = Some ps1 ∧
    @count exampleFlags false ps1 (exampleFinder 3) [x03; x06; xff] 3 = Some ps2 ∧
    counts_ ps2 = (λ c, 2 * c) <$> counts_ ps1.
Proof.
  intros ps.
  apply (@count_twice_doubles exampleFlags false ps (exampleFinder 3)
           (default [] (@initByteCounts exampleFlags 3)) [x03; x06; xff]).
  - vm_compute. discriminate.
  - reflexivity.
  - vm_compute. reflexivity.
  - vm_compute. reflexivity.
Defined.

Lemma count_additive_over_segments_witness :
  let ps := examplePrimeSieve 3 in
  @count exampleFlags false ps (exampleFinder 3) [x03; x06] 2
  ≫= (λ ps1, @count exampleFlags false ps1 (exampleFinder 3) [xff] 1)
  = @count exampleFlags false ps (exampleFinder 3) [x03; x06; xff] 3.
Proof.
  intros ps.
  apply (@count_additive_over_segments exampleFlags false ps (exampleFinder 3)
           (default [] (@initByteCounts exampleFlags 3)) [x03; x06] [xff]).
  - vm_compute. discriminate.
  - reflexivity.
  - vm_compute. reflexivity.
  - vm_compute. reflexivity.
Defined.


Lemma value_rows_have_counted_length_witness :
  ∃ counts,
    default [] (@initByteCounts exampleFlags 129) !! 0%nat = Some (Some counts) ∧
    ∀ b : byte,
      counts !! byteIndex b
      = Some (Z.of_nat (length (rowEntries
           (default [] (default [] (@initBitValues exampleFlags wheel30 129)
                        !! byteIndex b))))).
Proof.
  apply (@value_rows_have_counted_length exampleFlags wheel30 7
           ltac:(split; cbn; first [reflexivity | lia]) eq_refl 129 0%nat).
  - unfold wheel30. rewrite END_256. repeat constructor; lia.
  - reflexivity.
  - reflexivity.
  - vm_compute. reflexivity.
  - vm_compute. reflexivity.
Defined.

Lemma value_table_serves_lowest_print_flag_witness :
  ∃ bm table,
    @generateType exampleFlags 768 = Some 1 ∧
    bitmasks !! 1%nat = Some bm ∧
    @initBitValues exampleFlags wheel30 768 = Some table ∧
    length table = 256%nat ∧
    ∀ b, 0 <= b <= 255 →
      table !! Z.to_nat b = Some (filled (rowValues wheel30 bm b ++ [END])).
Proof.
  apply (@value_table_serves_lowest_print_flag exampleFlags wheel30 7
           ltac:(split; cbn; first [reflexivity | lia]) eq_refl 768 1%nat).
  split; [lia|]. split; [reflexivity|].
  intros t Ht. assert (t = 0) as -> by lia. reflexivity.
Defined.

Lemma prime_value_rows_list_set_bits_witness :
  ∃ table,
    @initBitValues exampleFlags wheel30 128 = Some table ∧
    ∀ b, 0 <= b <= 255 →
      table !! Z.to_nat b
      = Some (filled ((bitValueAt wheel30 <$> setBits b) ++ [END])).
Proof.
  apply (@prime_value_rows_list_set_bits exampleFlags wheel30 7
           ltac:(split; cbn; first [reflexivity | lia]) eq_refl 128).
  right. reflexivity.
Defined.

Lemma tuplet_chain_runs_through_pattern_bits_witness :
  length (setBits 0x1c) = 3%nat ∧
  tupletMembers 2 (bitValueOf wheel30 0x1c) = Some [13; 17; 19].
Proof.
  apply (tuplet_chain_runs_through_pattern_bits 2
           (default [] (bitmasks !! 2%nat)) 0x1c).
  - reflexivity.
  - vm_compute. right. right. left.
Defined.

Lemma generate_hands_over_what_count_counts_witness :
  let ps := examplePrimeSieve 129 in
  ∃ es,
    @generate exampleFlags ps (exampleFinder 129) 0 [x03; xff] 2 = Some es ∧
    Z.of_nat (length es)
    = tableSum (default [] (countRow (exampleFinder 129) 0)) [x03; xff].
Proof.
  intros ps.
  apply (@generate_hands_over_what_count_counts exampleFlags 7
           ltac:(split; cbn; first [reflexivity | lia]) ps (exampleFinder 129)
           (default [] (@initByteCounts exampleFlags 129))
           (default [] (@initBitValues exampleFlags wheel30 129))
           0%nat 0 [x03; xff]).
  - vm_compute. reflexivity.
  - reflexivity.
  - reflexivity.
  - reflexivity.
  - vm_compute. reflexivity.
  - vm_compute. reflexivity.
  - vm_compute. reflexivity.
  - vm_compute. reflexivity.
Defined.

Lemma generate_over_concatenation_witness :
  let ps := examplePrimeSieve 128 in
  ∃ es1 es2,
    @generate exampleFlags ps (exampleFinder 128) 0 [x03] 1 = Some es1 ∧
    @generate exampleFlags ps (exampleFinder 128) 30 [x06] 1 = Some es2 ∧
    @generate exampleFlags ps (exampleFinder 128) 0 [x03; x06] 2
    = Some (es1 ++ es2).
Proof.
  intros ps.
  apply (@generate_over_concatenation exampleFlags wheel30 ps
           (exampleFinder 128)
           (default [] (@initBitValues exampleFlags wheel30 128))
           0 [x03] [x06]).
  - vm_compute. reflexivity.
  - lia.
  - vm_compute. reflexivity.
  - reflexivity.
  - vm_compute. reflexivity.
  - vm_compute. reflexivity.
Defined.

Lemma generate_hands_over_ascending_values_witness :
  let ps := examplePrimeSieve 128 in
  ∃ vs,
    @generate exampleFlags ps (exampleFinder 128) 0 [x03; x06] 2
    = Some (@plainEffect exampleFlags ps <$> vs) ∧
    StronglySorted Z.lt vs ∧ Forall (λ v, 0 + 7 <= v) vs.
Proof.
  intros ps.
  apply (@generate_hands_over_ascending_values exampleFlags 7
           ltac:(split; cbn; first [reflexivity | lia]) ps (exampleFinder 128)
           (default [] (@initBitValues exampleFlags wheel30 128))
           0 [x03; x06]).
  - vm_compute. reflexivity.
  - lia.
  - vm_compute. reflexivity.
  - reflexivity.
  - vm_compute. reflexivity.
  - vm_compute. reflexivity.
Defined.

Lemma analyseSieve_on_empty_segment_witness :
  let ps := examplePrimeSieve 129 in
  @analyseSieve exampleFlags false ps (exampleFinder 129) 0 [] 0
  = Some (ps, [call_count; call_generate; doStatus 0]).
Proof.
  intros ps.
  apply (@analyseSieve_on_empty_segment exampleFlags wheel30 false ps
           (exampleFinder 129) 0).
  - reflexivity.
  - unfold ps, examplePrimeSieve. cbn. repeat constructor; lia.
  - vm_compute. reflexivity.
Defined.

Lemma constructor_builds_what_the_flags_ask_witness :
  ∃ pnf,
    @newPrimeNumberFinder exampleFlags wheel30 true (examplePrimeSieve 129)
    = Some (set_flags (examplePrimeSieve 129) 65665, pnf) ∧
    soe_sieveSize (soe pnf) = 32768 ∧
    is_Some (primeByteCounts_ pnf) ∧ is_Some (primeBitValues_ pnf).
Proof.
  destruct (@constructor_builds_what_the_flags_ask exampleFlags wheel30 7
              ltac:(split; cbn; first [reflexivity | lia]) eq_refl true
              (examplePrimeSieve 129))
    as (pnf & Hnew & _ & _ & _ & _ & Hsize & Hcounts & Hvalues & _).
  exists pnf. split; [exact Hnew|]. split; [exact Hsize|]. split.
  - apply Hcounts. reflexivity.
  - apply Hvalues. reflexivity.
Defined.

Lemma generate_reconstructs_the_set_bits_witness :
  let ps := examplePrimeSieve 128 in
  @generate exampleFlags ps (exampleFinder 128) 0 [x03; x06] 2
  = Some (@plainEffect exampleFlags ps <$> [7; 11; 41; 43]).
Proof.
  intros ps.
  apply (@generate_reconstructs_the_set_bits exampleFlags 7
           ltac:(split; cbn; first [reflexivity | lia]) wheel30 ps
           (exampleFinder 128)
           (default [] (@initBitValues exampleFlags wheel30 128))
           0 [x03; x06]).
  - reflexivity.
  - unfold wheel30. rewrite END_256. repeat constructor; lia.
  - vm_compute. reflexivity.
  - lia.
  - vm_compute. reflexivity.
  - reflexivity.
  - right. reflexivity.
  - vm_compute. reflexivity.
  - vm_compute. reflexivity.
Defined.

Lemma generate_prints_the_contained_patterns_witness :
  let ps := examplePrimeSieve 256 in
  @generate exampleFlags ps (exampleFinder 256) 0 [x06; x18] 2
  = Some [cout ("(11, 13)" ++ newline); cout ("(47, 49)" ++ newline)].
Proof.
  intros ps. etrans.
  apply (@generate_prints_the_contained_patterns exampleFlags 7
           ltac:(split; cbn; first [reflexivity | lia]) ps (exampleFinder 256)
           (default [] (@initBitValues exampleFlags wheel30 256)) 1%nat
           (default [] (bitmasks !! 1%nat)) 0 [x06; x18]).
  - vm_compute. reflexivity.
  - reflexivity.
  - split; [lia|]. split; [reflexivity|].
    intros t Ht. assert (t = 0) as -> by lia. reflexivity.
  - reflexivity.
  - vm_compute. reflexivity.
  - vm_compute. reflexivity.
  - vm_compute. reflexivity.
Defined.
